(** * Adopt Orphan: the incremental orphan-link index

    A shallow embedding of the Obsidian plugin [AdoptOrphanPlugin] and its
    [OrphanLinksView] (revision with the manual regex scan and the
    suffix-aware existence check), together with the [createFile] action of
    the revision that consults the vault before creating.

    JavaScript strings are sequences of UTF-16 code units; a [Map] and a
    [Set] are finite maps and finite sets (the iteration order never reaches
    a result: the only array built from a set is sorted). *)

From Stdlib Require Import NArith String Ascii.
From Stdlib Require Import DecimalString.
From stdpp Require Import gmap list sorting.

Local Open Scope N_scope.

(** ** Strings *)

(** A JavaScript string: the list of its UTF-16 code units. *)
Abbreviation jsstring := (list N).

(** The code units of an ASCII literal. *)
Definition str (s : string) : jsstring :=
  map N_of_ascii (list_ascii_of_string s).

Module Ch.
Definition lbrack : N := 91.   (* [ *)
Definition rbrack : N := 93.   (* ] *)
Definition pipe   : N := 124.  (* | *)
End Ch.

(** [WhiteSpace] and [LineTerminator] code points of ECMAScript, the ones
    [String.prototype.trim] strips. *)
Definition is_whitespace (c : N) : bool :=
  (9 <=? c) && (c <=? 13)
  || (c =? 32) || (c =? 160) || (c =? 5760)
  || (8192 <=? c) && (c <=? 8202)
  || (c =? 8232) || (c =? 8233) || (c =? 8239) || (c =? 8287)
  || (c =? 12288) || (c =? 65279).

(** [s.trimStart()] *)
Fixpoint trimStart (s : jsstring) : jsstring :=
  match s with
  | c :: s' => if is_whitespace c then trimStart s' else s
  | [] => []
  end.

(** [s.trimEnd()] *)
Definition trimEnd (s : jsstring) : jsstring :=
  reverse (trimStart (reverse s)).

(** [s.trim()] *)
Definition trim (s : jsstring) : jsstring := trimEnd (trimStart s).

(** [s.split(sep)] for a separator of one code unit: the pieces between
    the occurrences of [sep], never an empty array. *)
Fixpoint split (sep : N) (s : jsstring) : list jsstring :=
  match s with
  | [] => [[]]
  | c :: s' =>
      if c =? sep then [] :: split sep s'
      else match split sep s' with
           | piece :: pieces => (c :: piece) :: pieces
           | [] => [[c]]
           end
  end.

(** [s.slice(2, -2)] *)
Definition slice_2_m2 (s : jsstring) : jsstring :=
  take (length s - 2 - 2)%nat (drop 2 s).

(** [s.endsWith(suffix)] *)
Definition endsWith (s suffix : jsstring) : bool :=
  bool_decide (drop (length s - length suffix)%nat s = suffix)
  && bool_decide (length suffix ≤ length s)%nat.

(** ** Regular expressions

    The fragment of ECMAScript patterns the plugin uses, with the
    backtracking semantics of the language: a pattern is run against the
    rest of the input with a continuation, and a greedy quantifier tries the
    longest repetition first. *)
Module Regex.

(** A pattern for one code unit. *)
Inductive atom : Type :=
| Lit (c : N)                 (* a literal, as in \[ *)
| Neg (c : N).                (* a negated class of one unit, [^\]] *)

Inductive t : Type :=
| One (a : atom)
| Plus (a : atom)             (* an atom under the greedy + *)
| Seq (r1 r2 : t)
| Group (r : t).              (* a capture group; String.match with /g
                                 returns whole matches only *)

Definition accepts (a : atom) (d : N) : bool :=
  match a with
  | Lit c => d =? c
  | Neg c => negb (d =? c)
  end.

(** Greedy [a+] against [s]: one unit of the class, then as many more
    as the continuation accepts, the longest first. *)
Fixpoint plus {A} (a : atom) (s : jsstring)
    (k : jsstring → option A) : option A :=
  match s with
  | c :: s' =>
      if accepts a c then
        match plus a s' k with
        | Some r => Some r
        | None => k s'
        end
      else None
  | [] => None
  end.

Fixpoint run {A} (r : t) (s : jsstring) (k : jsstring → option A)
    : option A :=
  match r with
  | One a =>
      match s with
      | d :: s' => if accepts a d then k s' else None
      | [] => None
      end
  | Plus a => plus a s k
  | Seq r1 r2 => run r1 s (fun s' => run r2 s' k)
  | Group r => run r s k
  end.

(** A match anchored at the head of [s]: the matched text and the rest. *)
Definition match_here (r : t) (s : jsstring) : option (jsstring * jsstring) :=
  match run r s Some with
  | Some rest => Some (take (length s - length rest)%nat s, rest)
  | None => None
  end.

(** [RegExpBuiltinExec] from the head of [s]: the leftmost position with
    a match. Returns the matched text and the input after it. *)
Fixpoint exec (r : t) (s : jsstring) : option (jsstring * jsstring) :=
  match match_here r s with
  | Some m => Some m
  | None =>
      match s with
      | _ :: s' => exec r s'
      | [] => None
      end
  end.

(** The loop of [String.prototype.match] for a pattern with the [g]
    flag: every match from left to right, the search resuming where the
    last match ended (one unit further after an empty match). [fuel]
    bounds the number of matches. *)
Fixpoint match_loop (fuel : nat) (r : t) (s : jsstring) : list jsstring :=
  match fuel with
  | O => []
  | S fuel' =>
      match exec r s with
      | None => []
      | Some (m, rest) =>
          m :: match m, rest with
               | [], [] => []
               | [], _ :: rest' => match_loop fuel' r rest'
               | _ :: _, _ => match_loop fuel' r rest
               end
      end
  end.

(** [s.match(r) || []] for a global [r]. There are at most
    [length s + 1] matches. *)
Definition match_all (r : t) (s : jsstring) : list jsstring :=
  match_loop (S (length s)) r s.

End Regex.

(** The pattern [/\[\[([^\]]+)\]\]/g] of [updateFileCache]. *)
Definition link_pattern : Regex.t :=
  let open := Regex.One (Regex.Lit Ch.lbrack) in
  let close := Regex.One (Regex.Lit Ch.rbrack) in
  Regex.Seq open
    (Regex.Seq open
      (Regex.Seq (Regex.Group (Regex.Plus (Regex.Neg Ch.rbrack)))
        (Regex.Seq close close))).

(** What the pattern asks for after the body, as a continuation: the two
    closing brackets, then anything. *)
Definition closing (s : jsstring) : option jsstring :=
  let close := Regex.One (Regex.Lit Ch.rbrack) in
  Regex.run (Regex.Seq close close) s Some.

(** ** Link extraction

    The body of [updateFileCache] between reading the content and storing
    the set:
<<
      const matches = content.match(/\[\[([^\]]+)\]\]/g) || [];
      const links = new Set<string>();
      for (const match of matches) {
        const linkName = match.slice(2, -2).split("|")[0].trim();
        if (linkName) links.add(linkName);
      }
>>
*)
Definition linkName_of (m : jsstring) : jsstring :=
  trim (default [] (head (split Ch.pipe (slice_2_m2 m)))).

Definition extractLinks (content : jsstring) : gset jsstring :=
  let matches := Regex.match_all link_pattern content in
  foldl (fun links m =>
           let linkName := linkName_of m in
           if bool_decide (linkName = []) then links
           else links ∪ {[ linkName ]})
        ∅ matches.

(** ** Ordering of strings

    [Array.prototype.sort] without a comparator orders strings by [x < y],
    the comparison of ECMAScript on sequences of code units. *)
Fixpoint str_lt (x y : jsstring) : bool :=
  match x, y with
  | _, [] => false
  | [], _ :: _ => true
  | c :: x', d :: y' => (c <? d) || (c =? d) && str_lt x' y'
  end.

(** [SortCompare x y ≤ 0]: [y] does not come before [x]. *)
Definition sort_le (x y : jsstring) : Prop := str_lt y x = false.

Global Instance sort_le_dec x y : Decision (sort_le x y).
Proof. unfold sort_le. apply _. Defined.

(** [array.sort()]; the order is total, so the sorted array does not
    depend on the algorithm of the engine. *)
Definition sort (l : list jsstring) : list jsstring := merge_sort sort_le l.

(** ** The host

    What the plugin sees of Obsidian: the vault, the workspace and the
    notices, kept in one state together with the plugin's own
    [linkCache]. *)

Inductive error : Type := Error (message : jsstring).

Definition message (e : error) : jsstring := let 'Error m := e in m.

(** How a call completes. *)
Inductive outcome (A : Type) : Type :=
| Normal (a : A)
| Throw (e : error).
Arguments Normal {A} a.
Arguments Throw {A} e.

(** A [TFile]; [data] is what [vault.read(file)] resolves to or rejects
    with. Its path is the key under which the vault holds it. *)
Record TFile : Type := { extension : jsstring; data : outcome jsstring }.

Inductive TAbstractFile : Type :=
| File (f : TFile)
| Folder.

Record state : Type := State {
  vault : gmap jsstring TAbstractFile;
  linkCache : gmap jsstring (gset jsstring);   (* Map<string, Set<string>> *)
  refreshes : nat;             (* calls of refreshView() so far *)
  console : list error;        (* console.error, latest first *)
  notices : list jsstring;     (* new Notice(...), latest first *)
  opened : list jsstring;      (* paths given to openFile, latest first *)
}.

Definition initial : state :=
  {| vault := ∅; linkCache := ∅; refreshes := 0%nat;
     console := []; notices := []; opened := [] |}.

(** The parts of Obsidian this repository relies on but does not
    contain. *)
Class Host : Type := {
  (** the extension the vault gives the file it creates at a path *)
  extname : jsstring → jsstring;
  (** [normalizePath] *)
  normalizePath : jsstring → jsstring;
  (** the error of [vault.create] on a path that is taken *)
  exists_error : error;
  (** any other reason for which the vault rejects a new path *)
  rejects : jsstring → option error;
  (** the error of [openFile] on what is not a file *)
  open_error : error;
}.

(** Computations over the state that may throw. *)
Definition M (A : Type) : Type := state → outcome A * state.

Global Instance M_ret : MRet M := λ A a st, (Normal a, st).

Global Instance M_bind : MBind M := λ A B k m st,
  match m st with
  | (Normal a, st') => k a st'
  | (Throw e, st') => (Throw e, st')
  end.

Definition throw {A} (e : error) : M A := λ st, (Throw e, st).

(** [try { body } catch (error) { handler }] *)
Definition try_catch {A} (body : M A) (handler : error → M A) : M A := λ st,
  match body st with
  | (Normal a, st') => (Normal a, st')
  | (Throw e, st') => handler e st'
  end.

(** [for (const x of xs) { await body(x) }] *)
Fixpoint for_of {A} (xs : list A) (body : A → M unit) : M unit :=
  match xs with
  | [] => mret ()
  | x :: xs' => body x ;; for_of xs' body
  end.

(** The state a computation leaves, and what it returns. *)
Definition run {A} (m : M A) (st : state) : state := snd (m st).
Definition result {A} (m : M A) (st : state) : outcome A := fst (m st).

Definition getAbstractFileByPath (path : jsstring) : M (option TAbstractFile) :=
  λ st, (Normal (vault st !! path), st).

(** The markdown files of a vault, each with its path. *)
Definition markdownFiles (v : gmap jsstring TAbstractFile)
    : list (jsstring * TFile) :=
  omap (λ '(path, file),
          match file with
          | File f =>
              if bool_decide (extension f = str "md") then Some (path, f)
              else None
          | Folder => None
          end)
       (map_to_list v).

Definition getMarkdownFiles : M (list (jsstring * TFile)) :=
  λ st, (Normal (markdownFiles (vault st)), st).

(** [vault.read(file)] *)
Definition vault_read (f : TFile) : M jsstring :=
  match data f with
  | Normal content => mret content
  | Throw e => throw e
  end.

(** [console.error(..., error)] *)
Definition console_error (e : error) : M unit := λ st,
  (Normal (),
   {| vault := vault st; linkCache := linkCache st; refreshes := refreshes st;
      console := e :: console st; notices := notices st; opened := opened st |}).

(** [new Notice(text)] *)
Definition Notice (text : jsstring) : M unit := λ st,
  (Normal (),
   {| vault := vault st; linkCache := linkCache st; refreshes := refreshes st;
      console := console st; notices := text :: notices st; opened := opened st |}).

(** [workspace.getLeaf().openFile(file)] *)
Definition openFile `{Host} (path : jsstring) (file : TAbstractFile) : M unit :=
  match file with
  | File _ => λ st,
      (Normal (),
       {| vault := vault st; linkCache := linkCache st; refreshes := refreshes st;
          console := console st; notices := notices st;
          opened := path :: opened st |})
  | Folder => throw open_error
  end.

(** [vault.create(path, data)]: rejects when the path is taken, else adds
    the file and tells the listeners of the ["create"] event. *)
Definition vault_create `{Host}
    (on_create : jsstring → TAbstractFile → M unit)
    (path content : jsstring) : M (jsstring * TAbstractFile) := λ st,
  match vault st !! path with
  | Some _ => (Throw exists_error, st)
  | None =>
      match rejects path with
      | Some e => (Throw e, st)
      | None =>
          let file := File {| extension := extname path; data := Normal content |} in
          let st' :=
            {| vault := <[path := file]> (vault st); linkCache := linkCache st;
               refreshes := refreshes st; console := console st;
               notices := notices st; opened := opened st |} in
          (on_create path file ;; mret (path, file)) st'
      end
  end.

(** A change of the store from outside the plugin, as seen before any
    event reaches it: the markdown or other file at [path] now reads
    [content]. *)
Definition store_write (path ext content : jsstring) (st : state) : state :=
  {| vault := <[path := File {| extension := ext; data := Normal content |}]> (vault st);
     linkCache := linkCache st; refreshes := refreshes st;
     console := console st; notices := notices st; opened := opened st |}.

(** ** The plugin, revision with the manual scan *)
Module ManualScan.

(** [this.linkCache.set(key, links)] *)
Definition linkCache_set (key : jsstring) (links : gset jsstring) : M unit := λ st,
  (Normal (),
   {| vault := vault st; linkCache := <[key := links]> (linkCache st);
      refreshes := refreshes st; console := console st;
      notices := notices st; opened := opened st |}).

(** [this.linkCache.delete(key)] *)
Definition linkCache_delete (key : jsstring) : M unit := λ st,
  (Normal (),
   {| vault := vault st; linkCache := delete key (linkCache st);
      refreshes := refreshes st; console := console st;
      notices := notices st; opened := opened st |}).

Definition getLinkCache : M (gmap jsstring (gset jsstring)) :=
  λ st, (Normal (linkCache st), st).

(** [refreshView()]: every open panel is told to refresh. The panels
    re-derive the list on their own; what the index does is recorded as
    one more notification. *)
Definition refreshView : M unit := λ st,
  (Normal (),
   {| vault := vault st; linkCache := linkCache st;
      refreshes := S (refreshes st); console := console st;
      notices := notices st; opened := opened st |}).

Definition updateFileCache (filePath : jsstring) (skipRefresh : bool) : M unit :=
  try_catch
    (file ← getAbstractFileByPath filePath;
     match file with
     | Some (File file) =>
         content ← vault_read file;
         let links := extractLinks content in
         linkCache_set filePath links ;;
         if negb skipRefresh then refreshView else mret ()
     | _ => mret ()
     end)
    (λ error, console_error error).

Definition buildCache : M unit :=
  files ← getMarkdownFiles;
  for_of files (λ file, updateFileCache (fst file) true).

(** The listeners [onload] registers on the vault. A listener does not
    await [updateFileCache]; the events are taken one at a time. *)
Definition on_create (path : jsstring) (file : TAbstractFile) : M unit :=
  match file with
  | File f =>
      if bool_decide (extension f = str "md") then updateFileCache path false
      else mret ()
  | Folder => mret ()
  end.

Definition on_delete (path : jsstring) : M unit :=
  linkCache_delete path ;; refreshView.

Definition on_rename (path oldPath : jsstring) : M unit :=
  cache ← getLinkCache;
  (if bool_decide (is_Some (cache !! oldPath)) then
     linkCache_set path (default ∅ (cache !! oldPath)) ;;
     linkCache_delete oldPath
   else mret ()) ;;
  refreshView.

Definition on_modify (path : jsstring) (file : TAbstractFile) : M unit :=
  match file with
  | File f =>
      if bool_decide (extension f = str "md") then updateFileCache path false
      else mret ()
  | Folder => mret ()
  end.

(** [onload], after the registrations. *)
Definition onload : M unit := buildCache.

(** The test of [getOrphans] on one link:
    [[link + ".md", link].some((path) => paths.has(path))]. *)
Definition resolves (paths : gset jsstring) (link : jsstring) : bool :=
  existsb (λ path, bool_decide (path ∈ paths)) [link ++ str ".md"; link].

Definition getOrphans : M (list jsstring) :=
  files ← getMarkdownFiles;
  let paths : gset jsstring := list_to_set (fst <$> files) in
  cache ← getLinkCache;
  let orphans : gset jsstring :=
    map_fold (λ _ (links : gset jsstring) (orphans : gset jsstring),
                set_fold (λ link (orphans : gset jsstring),
                            if negb (resolves paths link)
                            then orphans ∪ {[ link ]} else orphans)
                         orphans links)
             ∅ cache in
  mret (sort (elements orphans)).

Definition createFile `{Host} (linkName : jsstring) : M unit :=
  try_catch
    (let fileName :=
       if endsWith linkName (str ".md") then linkName
       else linkName ++ str ".md" in
     '(path, file) ← vault_create on_create fileName [];
     openFile path file ;;
     Notice (str "Created: " ++ fileName))
    (λ error, Notice (str "Failed to create file: " ++ message error)).

End ManualScan.

(** ** The revision that looks the file up before creating it

    Of this revision, which takes its links from the metadata cache of the
    host, only [createFile] differs in what the claims below are about. *)
Module VaultLookup.

(** The ["create"] listener of this revision defers its work with
    [setTimeout]; nothing of it runs inside [vault.create]. *)
Definition on_create (path : jsstring) (file : TAbstractFile) : M unit :=
  mret ().

Definition createFile `{Host} (linkName : jsstring) : M unit :=
  try_catch
    (let fileName :=
       if endsWith linkName (str ".md") then linkName
       else linkName ++ str ".md" in
     let normalizedPath := normalizePath fileName in
     existingFile ← getAbstractFileByPath normalizedPath;
     match existingFile with
     | Some existingFile =>
         openFile normalizedPath existingFile ;;
         Notice (str "Opened existing file: " ++ normalizedPath)
     | None =>
         '(path, file) ← vault_create on_create normalizedPath [];
         openFile path file ;;
         Notice (str "Created: " ++ normalizedPath)
     end)
    (λ error, Notice (str "Failed to create file: " ++ message error)).

End VaultLookup.

(** ** Specification of the extraction

    The reference syntax, stated on its own: a marker is an opening [[[],
    a non-empty body free of []], and a closing []]]. *)
Definition marker (body m : jsstring) : Prop :=
  m = str "[[" ++ body ++ str "]]" ∧ body ≠ [] ∧ (Ch.rbrack ∉ body).

(** Some marker starts at the head of [s]. *)
Definition marker_prefix (s : jsstring) : Prop :=
  ∃ body m rest, marker body m ∧ s = m ++ rest.

(** The non-overlapping markers of a text from left to right: the first
    marker is the one that starts leftmost, and the scan goes on after its
    closing brackets. *)
Inductive Scan : jsstring → list jsstring → Prop :=
| Scan_done s :
    (∀ pre rest, s = pre ++ rest → ¬ marker_prefix rest) →
    Scan s []
| Scan_marker pre body m post ms :
    marker body m →
    (∀ pre' rest', pre ++ m ++ post = pre' ++ rest' →
       marker_prefix rest' → (length pre ≤ length pre')%nat) →
    Scan post ms →
    Scan (pre ++ m ++ post) (m :: ms).

(** [target] is what stands before the first [|] of [body], all of [body]
    when it has none. *)
Definition before_pipe (body target : jsstring) : Prop :=
  (Ch.pipe ∉ target) ∧
  (body = target ∨ ∃ alias, body = target ++ Ch.pipe :: alias).

(** [t] is [s] without its leading and trailing whitespace. *)
Definition trimmed (s t : jsstring) : Prop :=
  ∃ l r, s = l ++ t ++ r
    ∧ Forall (λ c, is_whitespace c = true) l
    ∧ Forall (λ c, is_whitespace c = true) r
    ∧ (∀ c, head t = Some c → is_whitespace c = false)
    ∧ (∀ c, last t = Some c → is_whitespace c = false).

(** The link name a marker stands for. *)
Definition link_of_marker (m name : jsstring) : Prop :=
  ∃ body target,
    marker body m ∧ before_pipe body target ∧ trimmed target name.

(** The text has two closing brackets in a row somewhere. *)
Fixpoint has_closing (s : jsstring) : bool :=
  match s with
  | c :: s' =>
      match s' with
      | d :: _ => (c =? Ch.rbrack) && (d =? Ch.rbrack) || has_closing s'
      | [] => false
      end
  | [] => false
  end.

(** ** Specification of the index and of the query *)

(** The documents of the store: its markdown files. *)
Definition is_document (st : state) (path : jsstring) : Prop :=
  ∃ f, vault st !! path = Some (File f) ∧ extension f = str "md".

(** The resolution policy: a document with that very identity, or with
    the identity followed by [.md]. *)
Definition resolves_to_document (st : state) (name : jsstring) : Prop :=
  is_document st name ∨ is_document st (name ++ str ".md").

(** The name is in the value-set of some indexed document. *)
Definition indexed (st : state) (name : jsstring) : Prop :=
  ∃ path links, linkCache st !! path = Some links ∧ name ∈ links.

(** The existence check [getOrphans] makes, on the store as it is. *)
Definition exists_check (st : state) (name : jsstring) : bool :=
  ManualScan.resolves (list_to_set (fst <$> markdownFiles (vault st))) name.

(** The entry [updateFileCache] leaves at a path, by what the vault holds
    there. *)
Definition entry_after (st : state) (path : jsstring) : option (gset jsstring) :=
  match vault st !! path with
  | Some (File f) =>
      match data f with
      | Normal content => Some (extractLinks content)
      | Throw _ => linkCache st !! path
      end
  | _ => linkCache st !! path
  end.

(** Lexicographic order on code units: a proper prefix comes first, else
    the first differing unit decides. Upper case letters have smaller
    units than lower case ones. *)
Inductive lex_lt : jsstring → jsstring → Prop :=
| lex_lt_nil c y : lex_lt [] (c :: y)
| lex_lt_head c d x y : c < d → lex_lt (c :: x) (d :: y)
| lex_lt_tail c x y : lex_lt x y → lex_lt (c :: x) (c :: y).

(** ** The panel of the revision with the manual scan

    [OrphanLinksView]: what [refresh] puts into the container, and the
    listeners of an item. The container is emptied first, so its children
    after the call are the elements created during it; [refresh] returns
    them. *)

(** [parent.createEl(tag, { text, cls, attr })] and the elements created
    inside it. *)
Inductive element : Type :=
| El (tag text cls : jsstring) (attr : list (jsstring * jsstring))
     (children : list element).

(** The text of an element and the texts of the elements inside it. *)
Definition el_text (e : element) : jsstring := let 'El _ text _ _ _ := e in text.
Definition el_cls (e : element) : jsstring := let 'El _ _ cls _ _ := e in cls.
Definition el_children (e : element) : list element :=
  let 'El _ _ _ _ children := e in children.

(** A number of elements in a template literal: its decimal digits. *)
Definition decimal (n : nat) : jsstring :=
  str (NilZero.string_of_uint (Nat.to_uint n)).

(** U+2728, the sparkles of the empty state. *)
Definition sparkles : N := 10024.

Module ManualScanView.

Definition empty_state : element :=
  El (str "div") (str "No orphan links found " ++ [sparkles])
     (str "orphan-empty-state") [] [].

Definition header (n : nat) : element :=
  El (str "div")
     (decimal n ++ str " orphan link"
        ++ (if bool_decide (n = 1%nat) then [] else str "s"))
     (str "orphan-header") [] [].

Definition item (link : jsstring) : element :=
  El (str "div") link (str "orphan-item") [(str "tabindex", str "0")] [].

Definition error_state : element :=
  El (str "div") (str "Error loading orphan links")
     (str "orphan-empty-state") [] [].

(** [refresh()]. Inside the [try] only [getOrphans] can throw, and it is
    called before anything is created. *)
Definition refresh : M (list element) :=
  try_catch
    (orphans ← ManualScan.getOrphans;
     if bool_decide (length orphans = 0%nat) then mret [empty_state]
     else
       mret [header (length orphans);
             El (str "div") [] (str "orphan-list") [] (item <$> orphans)])
    (λ error, console_error error ;; mret [error_state]).

(** [onOpen()] *)
Definition onOpen : M (list element) :=
  cache ← ManualScan.getLinkCache;
  (if bool_decide (size cache = 0%nat) then ManualScan.buildCache
   else mret ()) ;;
  refresh.

End ManualScanView.

(** ** The revision over the metadata cache

    The plugin of the revision whose [createFile] is in [VaultLookup]: the
    links of a file come from the metadata cache of the host, and a link
    is resolved by the host. *)

(** What this revision asks of the metadata cache. *)
Class MetadataCache : Type := {
  (** [getFileCache(file)?.links] with the [link] text of each entry, for
      the file at a path; [None] when the file has no cache or the cache
      no links *)
  cached_links : state → jsstring → option (list jsstring);
  (** [getFirstLinkpathDest(link, "")]: the path of the file the link
      resolves to, if any *)
  linkpath_dest : state → jsstring → option jsstring;
}.

Module MetadataIndex.

(** [link.link.split("|")[0].trim()] *)
Definition linkName_of (link : jsstring) : jsstring :=
  trim (default [] (head (split Ch.pipe link))).

(** The loop of [updateFileCache] over [cache.links]. *)
Definition links_of (links : list jsstring) : gset jsstring :=
  foldl (λ (acc : gset jsstring) link,
           let linkName := linkName_of link in
           if bool_decide (linkName = []) then acc
           else acc ∪ {[ linkName ]})
        ∅ links.

Definition getFileCache_links `{MetadataCache} (path : jsstring)
    : M (option (list jsstring)) :=
  λ st, (Normal (cached_links st path), st).

Definition updateFileCache `{MetadataCache}
    (filePath : jsstring) (skipRefresh : bool) : M unit :=
  try_catch
    (file ← getAbstractFileByPath filePath;
     match file with
     | Some (File file) =>
         cache ← getFileCache_links filePath;
         let links :=
           match cache with
           | Some cached => links_of cached
           | None => ∅
           end in
         ManualScan.linkCache_set filePath links ;;
         if negb skipRefresh then ManualScan.refreshView else mret ()
     | _ => mret ()
     end)
    (λ error, mret ()).

(** [buildCache()]; the [fileToLinktext] it awaits first has no effect
    on what the plugin keeps. *)
Definition buildCache `{MetadataCache} : M unit :=
  files ← getMarkdownFiles;
  for_of files (λ file, updateFileCache (fst file) true).

(** [onunload()] *)
Definition onunload : M unit := λ st,
  (Normal (),
   {| vault := vault st; linkCache := ∅; refreshes := refreshes st;
      console := console st; notices := notices st; opened := opened st |}).

Definition getOrphans `{MetadataCache} : M (list jsstring) := λ st,
  let cache := linkCache st in
  let orphans : gset jsstring :=
    map_fold (λ _ (links : gset jsstring) (orphans : gset jsstring),
                set_fold (λ link (orphans : gset jsstring),
                            match linkpath_dest st link with
                            | None => orphans ∪ {[ link ]}
                            | Some resolvedFile => orphans
                            end)
                         orphans links)
             ∅ cache in
  (Normal (sort (elements orphans)), st).

End MetadataIndex.

(** ** The revision over the unresolved links of the host

    [getOrphans] of the revision that keeps no index of its own:
    [metadataCache.unresolvedLinks] maps a source path to the link names
    that do not resolve in it, each with a count. *)
Module UnresolvedLinks.

Definition getOrphans (unresolved : gmap jsstring (gmap jsstring nat))
    : list jsstring :=
  let orphans : gset jsstring :=
    map_fold (λ _ (links : gmap jsstring nat) (orphans : gset jsstring),
                map_fold (λ link (_ : nat) (orphans : gset jsstring),
                            orphans ∪ {[ link ]})
                         orphans links)
             ∅ unresolved in
  sort (elements orphans).

End UnresolvedLinks.

(** ** Runs of the plugin

    What can happen to the state of the revision with the manual scan,
    one step at a time: the store changes in any way, an event reaches a
    listener with any payload, the cache is built, the panel is opened or
    refreshed, an item is activated. *)

(** The store changes from outside. *)
Definition store_set (v : gmap jsstring TAbstractFile) (st : state) : state :=
  {| vault := v; linkCache := linkCache st; refreshes := refreshes st;
     console := console st; notices := notices st; opened := opened st |}.

Inductive step `{Host} : state → state → Prop :=
| step_store st v : step st (store_set v st)
| step_create st path file : step st (run (ManualScan.on_create path file) st)
| step_modify st path file : step st (run (ManualScan.on_modify path file) st)
| step_delete st path : step st (run (ManualScan.on_delete path) st)
| step_rename st path oldPath :
    step st (run (ManualScan.on_rename path oldPath) st)
| step_buildCache st : step st (run ManualScan.buildCache st)
| step_onOpen st : step st (run ManualScanView.onOpen st)
| step_refresh st : step st (run ManualScanView.refresh st)
| step_createFile st linkName :
    step st (run (ManualScan.createFile linkName) st).

Inductive reachable `{Host} : state → Prop :=
| reachable_initial : reachable initial
| reachable_step st st' : reachable st → step st st' → reachable st'.

(** A link name as the index holds it: not empty, without [|] or []],
    and without whitespace at either end. *)
Definition wf_name (name : jsstring) : Prop :=
  name ≠ []
  ∧ (Ch.pipe ∉ name) ∧ (Ch.rbrack ∉ name)
  ∧ (∀ c, head name = Some c → is_whitespace c = false)
  ∧ (∀ c, last name = Some c → is_whitespace c = false).

Definition index_wf (st : state) : Prop :=
  ∀ path links name,
    linkCache st !! path = Some links → name ∈ links → wf_name name.

(** Every entry of the index of [st'] is an entry of the index of [st]
    (maybe under another path) or the extraction of some content. *)
Definition entries_from (st st' : state) : Prop :=
  ∀ path links,
    linkCache st' !! path = Some links →
    (∃ path', linkCache st !! path' = Some links)
    ∨ (∃ content, links = extractLinks content).

(** What [refresh] renders for a list of orphans. *)
Definition rendered (orphans : list jsstring) : list element :=
  if bool_decide (length orphans = 0%nat) then [ManualScanView.empty_state]
  else [ManualScanView.header (length orphans);
        El (str "div") [] (str "orphan-list") []
           (ManualScanView.item <$> orphans)].

(** A host for the examples: a path is free unless taken, and a new file
    gets the extension [md] when its path ends in [.md]. *)
Definition sample_host : Host :=
  {| extname := λ path, if endsWith path (str ".md") then str "md" else [];
     normalizePath := λ path, path;
     exists_error := Error (str "File already exists.");
     rejects := λ _, None;
     open_error := Error (str "Not a file") |}.

(** ** Unfolding the monad *)

Ltac unfold_M :=
  unfold run, result, try_catch, mbind, M_bind, mret, M_ret, throw,
    getAbstractFileByPath, getMarkdownFiles, vault_read, console_error,
    Notice, ManualScan.linkCache_set, ManualScan.linkCache_delete,
    ManualScan.getLinkCache, ManualScan.refreshView in *.

(** * Proofs *)

(** ** The pattern against the marker syntax *)

Lemma closing_Some s rest :
  closing s = Some rest ↔ s = Ch.rbrack :: Ch.rbrack :: rest.
Proof.
  unfold closing; simpl. split.
  - destruct s as [|c [|d s']]; try discriminate.
    + destruct (N.eqb_spec c Ch.rbrack); discriminate.
    + destruct (N.eqb_spec c Ch.rbrack); [|discriminate].
      destruct (N.eqb_spec d Ch.rbrack); [|discriminate].
      intros [= ->]. by subst.
  - intros ->. by rewrite N.eqb_refl.
Qed.

Lemma plus_closing s rest :
  Regex.plus (Regex.Neg Ch.rbrack) s closing = Some rest ↔
  ∃ body, body ≠ [] ∧ (Ch.rbrack ∉ body)
          ∧ s = body ++ Ch.rbrack :: Ch.rbrack :: rest.
Proof.
  revert rest. induction s as [|c s IH]; intros rest; simpl.
  - split; [discriminate|]. intros (body & Hne & _ & Heq).
    by destruct body.
  - destruct (N.eqb_spec c Ch.rbrack) as [->|Hc]; simpl.
    + split; [discriminate|]. intros ([|b body] & Hne & Hnin & Heq); [done|].
      injection Heq as <- _. exfalso; apply Hnin; constructor.
    + destruct (Regex.plus _ s closing) as [r|].
      * destruct (proj1 (IH r) eq_refl) as (body & Hne & Hnin & ->). split.
        -- intros [= ->]. exists (c :: body).
           split_and!; [done| by apply not_elem_of_cons |done].
        -- intros ([|b body'] & Hne' & Hnin' & Heq); [done|].
           injection Heq as <- Heq.
           apply not_elem_of_cons in Hnin' as [_ Hnin'].
           destruct body' as [|b' body']; simpl in Heq.
           ++ destruct body as [|b body]; [done|]. injection Heq as Hb _.
              exfalso; apply Hnin. rewrite Hb. by left.
           ++ apply (IH rest). by exists (b' :: body').
      * rewrite closing_Some. split.
        -- intros ->. exists [c].
           split_and!; [done| |done].
           apply not_elem_of_cons; split; [done|apply not_elem_of_nil].
        -- intros ([|b body'] & Hne' & Hnin' & Heq); [done|].
           injection Heq as <- Heq.
           apply not_elem_of_cons in Hnin' as [_ Hnin'].
           destruct body' as [|b' body']; [done|].
           exfalso. assert (None = Some rest) as Hr; [|done].
           apply (IH rest). by exists (b' :: body').
Qed.

Lemma run_link_pattern s rest :
  Regex.run link_pattern s Some = Some rest ↔
  ∃ body, body ≠ [] ∧ (Ch.rbrack ∉ body)
          ∧ s = Ch.lbrack :: Ch.lbrack :: body ++ Ch.rbrack :: Ch.rbrack :: rest.
Proof.
  split.
  - destruct s as [|c [|d s2]]; simpl; try discriminate.
    { destruct (c =? Ch.lbrack); discriminate. }
    destruct (N.eqb_spec c Ch.lbrack) as [->|]; [|discriminate].
    destruct (N.eqb_spec d Ch.lbrack) as [->|]; [|discriminate].
    intros (body & Hne & Hnin & ->)%plus_closing. by exists body.
  - intros (body & Hne & Hnin & ->). simpl.
    apply plus_closing. by exists body.
Qed.

Lemma marker_app body rest :
  Ch.lbrack :: Ch.lbrack :: body ++ Ch.rbrack :: Ch.rbrack :: rest
  = (str "[[" ++ body ++ str "]]") ++ rest.
Proof. simpl. by rewrite <- app_assoc. Qed.

Lemma match_here_Some s m rest :
  Regex.match_here link_pattern s = Some (m, rest) ↔
  ∃ body, marker body m ∧ s = m ++ rest.
Proof.
  unfold Regex.match_here. split.
  - destruct (Regex.run link_pattern s Some) as [r|] eqn:Hrun; [|discriminate].
    apply run_link_pattern in Hrun as (body & Hne & Hnin & ->).
    rewrite marker_app, length_app, Nat.add_sub, take_app_length.
    intros [= <- <-]. by exists body.
  - intros (body & (-> & Hne & Hnin) & ->).
    assert (Regex.run link_pattern ((str "[[" ++ body ++ str "]]") ++ rest) Some
            = Some rest) as ->.
    { apply run_link_pattern. exists body. by rewrite marker_app. }
    by rewrite length_app, Nat.add_sub, take_app_length.
Qed.

Lemma match_here_None s :
  Regex.match_here link_pattern s = None ↔ ¬ marker_prefix s.
Proof.
  split.
  - intros Hnone (body & m & rest & Hm & Hs).
    assert (Regex.match_here link_pattern s = Some (m, rest)) as Hsome
      by (apply match_here_Some; eauto).
    congruence.
  - intros Hno. destruct (Regex.match_here link_pattern s) as [[m rest]|] eqn:H;
      [|done].
    apply match_here_Some in H as (body & Hm & Hs).
    exfalso; apply Hno. by exists body, m, rest.
Qed.

(** A marker is never empty: the loop of [match] always resumes strictly
    further. *)
Lemma marker_length body m : marker body m → (4 < length m)%nat.
Proof.
  intros (-> & Hne & _). destruct body; [done|].
  simpl. rewrite length_app. simpl. lia.
Qed.

(** At one position at most one marker starts. *)
Lemma marker_prefix_unique body m rest body' m' rest' :
  marker body m → marker body' m' → m ++ rest = m' ++ rest' →
  m = m' ∧ rest = rest'.
Proof.
  intros Hm Hm' Heq.
  assert (Regex.match_here link_pattern (m ++ rest) = Some (m, rest)) as H1
    by (apply match_here_Some; eauto).
  assert (Regex.match_here link_pattern (m ++ rest) = Some (m', rest')) as H2
    by (apply match_here_Some; eauto).
  rewrite H1 in H2. by injection H2.
Qed.

(** ** The search for the leftmost marker *)

Lemma exec_Some s m rest :
  Regex.exec link_pattern s = Some (m, rest) →
  ∃ pre body,
    s = pre ++ m ++ rest ∧ marker body m ∧
    ∀ pre' rest', s = pre' ++ rest' → marker_prefix rest' →
                  (length pre ≤ length pre')%nat.
Proof.
  induction s as [|c s IH]; simpl.
  - discriminate.
  - destruct (Regex.match_here link_pattern (c :: s)) as [mr|] eqn:Hhere.
    + intros [= ->]. apply match_here_Some in Hhere as (body & Hm & Hs).
      exists [], body. split; [done|split; [done|]]. intros; simpl; lia.
    + intros (pre & body & -> & Hm & Hleft)%IH.
      exists (c :: pre), body. split; [done|split; [done|]].
      intros [|c' pre'] rest' Heq Hpre.
      * simpl in Heq. subst rest'. by apply match_here_None in Hhere.
      * injection Heq as _ Heq. simpl. apply le_n_S. by eapply Hleft.
Qed.

Lemma exec_None s :
  Regex.exec link_pattern s = None →
  ∀ pre rest, s = pre ++ rest → ¬ marker_prefix rest.
Proof.
  induction s as [|c s IH]; simpl.
  - intros _ pre rest Heq. symmetry in Heq.
    apply app_eq_nil in Heq as [_ ->]. by apply match_here_None.
  - destruct (Regex.match_here link_pattern (c :: s)) eqn:Hhere; [done|].
    intros Hnone [|c' pre] rest Heq.
    + simpl in Heq. subst rest. by apply match_here_None.
    + injection Heq as _ Heq. by eapply IH.
Qed.

(** ** The global match is the left-to-right scan *)

Lemma match_loop_Scan fuel s :
  (length s < fuel)%nat → Scan s (Regex.match_loop fuel link_pattern s).
Proof.
  revert s. induction fuel as [|fuel IH]; intros s Hfuel; [lia|]. simpl.
  destruct (Regex.exec link_pattern s) as [[m rest]|] eqn:Hexec.
  - apply exec_Some in Hexec as (pre & body & -> & Hm & Hleft).
    pose proof (marker_length _ _ Hm) as Hlen.
    destruct m as [|c m]; [simpl in Hlen; lia|].
    eapply Scan_marker; [done|done|].
    apply IH. rewrite !length_app in Hfuel. simpl in Hfuel. lia.
  - apply Scan_done. by apply exec_None.
Qed.

Lemma match_all_Scan s : Scan s (Regex.match_all link_pattern s).
Proof. apply match_loop_Scan. lia. Qed.

(** The scan has one result only. *)
Lemma Scan_deterministic s ms1 ms2 : Scan s ms1 → Scan s ms2 → ms1 = ms2.
Proof.
  intros H1. revert ms2.
  induction H1 as [s Hno|pre body m post ms Hm Hleft Hscan IH]; intros ms2 H2.
  - inversion H2 as [|pre' body' m' post' ms' Hm' _ _ Hs]; [done|]. subst.
    exfalso. eapply Hno; [done|]. by exists body', m', post'.
  - inversion H2 as [s' Hno|pre' body' m' post' ms' Hm' Hleft' Hscan' Hs]; subst.
    + exfalso. eapply Hno; [done|]. by exists body, m, post.
    + assert (length pre = length pre') as Hlen.
      { apply Nat.le_antisymm.
        - eapply Hleft; [by symmetry|]. by exists body', m', post'.
        - eapply Hleft'; [done|]. by exists body, m, post. }
      assert (pre' = pre ∧ m' ++ post' = m ++ post) as [-> Heq].
      { apply app_inj_1; [done|]. done. }
      destruct (marker_prefix_unique _ _ _ _ _ _ Hm' Hm Heq) as [-> ->].
      f_equal. by apply IH.
Qed.

(** ** From a match to its link name *)

Lemma slice_marker body m : marker body m → slice_2_m2 m = body.
Proof.
  intros (-> & _ & _). unfold slice_2_m2.
  change (drop 2 (str "[[" ++ body ++ str "]]")) with (body ++ str "]]").
  rewrite !length_app.
  change (length (str "[[")) with 2%nat. change (length (str "]]")) with 2%nat.
  replace (2 + (length body + 2) - 2 - 2)%nat with (length body) by lia.
  apply take_app_length.
Qed.

Lemma marker_body_unique body body' m : marker body m → marker body' m → body = body'.
Proof.
  intros H H'. by rewrite <- (slice_marker _ _ H), <- (slice_marker _ _ H').
Qed.

Lemma split_head s :
  ∃ target, head (split Ch.pipe s) = Some target ∧ before_pipe s target.
Proof.
  induction s as [|c s (target & Hhead & Hnin & Hbody)]; simpl.
  - exists []. split; [done|]. split; [apply not_elem_of_nil|by left].
  - destruct (N.eqb_spec c Ch.pipe) as [->|Hc].
    + exists []. split; [done|]. split; [apply not_elem_of_nil|].
      right. by exists s.
    + destruct (split Ch.pipe s) as [|piece pieces]; [done|].
      injection Hhead as ->. exists (c :: target). split; [done|].
      split; [by apply not_elem_of_cons|].
      destruct Hbody as [->|(alias & ->)]; [by left|right; by exists alias].
Qed.

Lemma before_pipe_unique s t t' : before_pipe s t → before_pipe s t' → t = t'.
Proof.
  revert t t'. induction s as [|c s IH]; intros t t' [Ht Hs] [Ht' Hs'].
  - assert (t = []) as ->.
    { destruct Hs as [<-|(a & Ha)]; [done|]. by destruct t. }
    destruct Hs' as [<-|(a & Ha)]; [done|]. by destruct t'.
  - assert (∀ u, Ch.pipe ∉ u →
               (c :: s = u ∨ ∃ alias, c :: s = u ++ Ch.pipe :: alias) →
               (c = Ch.pipe ∧ u = []) ∨
               (c ≠ Ch.pipe ∧ ∃ u', u = c :: u' ∧ before_pipe s u')) as Hcase.
    { intros [|d u] Hu Hcs.
      - destruct Hcs as [|(alias & [= -> ->])]; [done|]. by left.
      - apply not_elem_of_cons in Hu as [Hd Hu]. right.
        destruct Hcs as [[= -> ->]|(alias & [= -> ->])].
        + split; [done|]. exists u. split; [done|]. split; [done|by left].
        + split; [done|]. exists u. split; [done|]. split; [done|].
          right; by exists alias. }
    destruct (Hcase t Ht Hs) as [[Hc ->]|[Hc (u & -> & Hu)]],
             (Hcase t' Ht' Hs') as [[Hc' ->]|[Hc' (u' & -> & Hu')]];
      try done.
    f_equal. by apply IH.
Qed.

Lemma trimStart_spec s :
  ∃ l, s = l ++ trimStart s
    ∧ Forall (λ c, is_whitespace c = true) l
    ∧ ∀ c, head (trimStart s) = Some c → is_whitespace c = false.
Proof.
  induction s as [|c s (l & Hs & Hl & Hhead)]; simpl.
  - by exists [].
  - destruct (is_whitespace c) eqn:Hc.
    + exists (c :: l). split; [by rewrite Hs at 1|]. split; [by constructor|done].
    + exists []. split; [done|]. split; [done|]. by intros ? [= <-].
Qed.

Lemma trimEnd_spec s :
  ∃ r, s = trimEnd s ++ r
    ∧ Forall (λ c, is_whitespace c = true) r
    ∧ ∀ c, last (trimEnd s) = Some c → is_whitespace c = false.
Proof.
  unfold trimEnd.
  destruct (trimStart_spec (reverse s)) as (l & Hs & Hl & Hhead).
  exists (reverse l). split_and!.
  - rewrite <- reverse_app, <- Hs. by rewrite reverse_involutive.
  - by apply Forall_reverse.
  - intros c. rewrite last_reverse. apply Hhead.
Qed.

Lemma trimStart_ws_app l s :
  Forall (λ c, is_whitespace c = true) l → trimStart (l ++ s) = trimStart s.
Proof. induction 1 as [|c l Hc _ IH]; simpl; [done|]. by rewrite Hc. Qed.

Lemma trimStart_id s :
  (∀ c, head s = Some c → is_whitespace c = false) → trimStart s = s.
Proof. destruct s as [|c s]; simpl; [done|]. intros H. by rewrite (H c). Qed.

Lemma trimStart_all_ws l :
  Forall (λ c, is_whitespace c = true) l → trimStart l = [].
Proof. induction 1 as [|c l Hc _ IH]; simpl; [done|]. by rewrite Hc. Qed.

Lemma trim_trimmed s : trimmed s (trim s).
Proof.
  unfold trim.
  destruct (trimStart_spec s) as (l & Hs & Hl & Hhead).
  destruct (trimEnd_spec (trimStart s)) as (r & Hs' & Hr & Hlast).
  exists l, r. split_and!; [|done|done| |done].
  - by rewrite <- Hs', <- Hs.
  - intros c Hc. apply Hhead. rewrite Hs'.
    destruct (trimEnd (trimStart s)); [done|]. done.
Qed.

Lemma trimmed_unique s t : trimmed s t → t = trim s.
Proof.
  intros (l & r & -> & Hl & Hr & Hhead & Hlast). unfold trim.
  rewrite trimStart_ws_app by done.
  destruct t as [|c t].
  - simpl. rewrite (trimStart_all_ws r Hr). done.
  - rewrite trimStart_id by (destruct t; apply Hhead).
    unfold trimEnd. rewrite reverse_app.
    rewrite trimStart_ws_app by (by apply Forall_reverse).
    rewrite trimStart_id; [by rewrite reverse_involutive|].
    intros d. rewrite <- last_reverse, reverse_involutive. apply Hlast.
Qed.

Lemma linkName_of_marker body m :
  marker body m → link_of_marker m (linkName_of m).
Proof.
  intros Hm. unfold linkName_of. rewrite (slice_marker _ _ Hm).
  destruct (split_head body) as (target & -> & Hbefore). simpl.
  exists body, target. split_and!; [done|done|apply trim_trimmed].
Qed.

Lemma link_of_marker_unique m name :
  link_of_marker m name → name = linkName_of m.
Proof.
  intros (body & target & Hm & Hbefore & Htrim).
  unfold linkName_of. rewrite (slice_marker _ _ Hm).
  destruct (split_head body) as (target' & -> & Hbefore'). simpl.
  rewrite (before_pipe_unique _ _ _ Hbefore' Hbefore).
  by apply trimmed_unique.
Qed.

(** Every element of a scan is a marker. *)
Lemma Scan_marker_elem s ms m : Scan s ms → m ∈ ms → ∃ body, marker body m.
Proof.
  induction 1 as [|pre body m' post ms Hm _ _ IH]; intros Hin.
  - by apply elem_of_nil in Hin.
  - apply elem_of_cons in Hin as [->|Hin]; [by exists body|by apply IH].
Qed.

(** The loop that fills [links]. *)
Lemma extractLinks_elem content name :
  name ∈ extractLinks content ↔
  name ≠ [] ∧ ∃ m, m ∈ Regex.match_all link_pattern content ∧ name = linkName_of m.
Proof.
  unfold extractLinks.
  generalize (Regex.match_all link_pattern content) as ms.
  assert (∀ ms (acc : gset jsstring),
            name ∈ foldl (λ links m,
                            if bool_decide (linkName_of m = []) then links
                            else links ∪ {[ linkName_of m ]}) acc ms
            ↔ name ∈ acc ∨ (name ≠ [] ∧ ∃ m, m ∈ ms ∧ name = linkName_of m))
    as Hfold.
  { induction ms as [|m ms IH]; intros acc; simpl.
    - split; [by left|]. intros [|(_ & m & Hm & _)]; [done|].
      by apply elem_of_nil in Hm.
    - rewrite IH. case_bool_decide as Hempty.
      + split.
        * intros [|(Hne & m' & Hm' & ->)]; [by left|right].
          split; [done|]. exists m'. split; [by right|done].
        * intros [|(Hne & m' & Hm' & ->)]; [by left|].
          apply elem_of_cons in Hm' as [->|Hm']; [done|].
          right. split; [done|]. by exists m'.
      + rewrite elem_of_union, elem_of_singleton. split.
        * intros [[Hacc| ->]|(Hne & m' & Hm' & ->)]; [by left| |].
          -- right. split; [done|]. exists m. split; [by left|done].
          -- right. split; [done|]. exists m'. split; [by right|done].
        * intros [|(Hne & m' & Hm' & ->)]; [by left; left|].
          apply elem_of_cons in Hm' as [->|Hm']; [by left; right|].
          right. split; [done|]. by exists m'. }
  intros ms. rewrite Hfold. split; [|by right].
  intros [Hin|]; [|done]. by apply not_elem_of_empty in Hin.
Qed.

(** ** Texts without closing brackets *)

Lemma has_closing_spec s :
  has_closing s = true ↔ ∃ pre post, s = pre ++ str "]]" ++ post.
Proof.
  induction s as [|c s IH].
  - split; [done|]. intros (pre & post & Heq). by destruct pre.
  - cbn [has_closing]. destruct s as [|d s].
    + split; [done|]. intros (pre & post & Heq).
      destruct pre as [|? [|? ?]]; done.
    + rewrite orb_true_iff, andb_true_iff, !N.eqb_eq, IH. split.
      * intros [[-> ->]|(pre & post & ->)]; [by exists [], s|].
        by exists (c :: pre), post.
      * intros ([|c' pre] & post & Heq).
        -- injection Heq as -> -> _. by left.
        -- injection Heq as _ Heq. right. by exists pre, post.
Qed.

Lemma no_closing_no_marker s :
  has_closing s = false → ∀ pre rest, s = pre ++ rest → ¬ marker_prefix rest.
Proof.
  intros Hno pre rest -> (body & m & rest' & (-> & _ & _) & ->).
  assert (has_closing (pre ++ (str "[[" ++ body ++ str "]]") ++ rest') = true)
    as Hyes; [|congruence].
  apply has_closing_spec. exists (pre ++ str "[[" ++ body), rest'.
  by rewrite <- !app_assoc.
Qed.

(** ** The order of the sorted array *)

Lemma str_lt_lex x y : str_lt x y = true ↔ lex_lt x y.
Proof.
  revert y. induction x as [|c x IH]; intros [|d y]; simpl.
  - split; [done|]. inversion 1.
  - split; [constructor|done].
  - split; [done|]. inversion 1.
  - rewrite orb_true_iff, andb_true_iff, N.ltb_lt, N.eqb_eq, IH. split.
    + intros [Hlt|[-> Hxy]]; [by apply lex_lt_head|by apply lex_lt_tail].
    + inversion 1; subst; [by left|by right].
Qed.

Lemma lex_lt_irrefl x : ¬ lex_lt x x.
Proof. induction x as [|c x IH]; inversion 1; subst; [lia|done]. Qed.

Lemma lex_lt_trans x y z : lex_lt x y → lex_lt y z → lex_lt x z.
Proof.
  intros Hxy. revert z. induction Hxy as [c y|c d x y Hcd|c x y Hxy IH];
    intros z Hyz; inversion Hyz; subst.
  - constructor.
  - constructor.
  - apply lex_lt_head. lia.
  - by apply lex_lt_head.
  - by apply lex_lt_head.
  - apply lex_lt_tail. by apply IH.
Qed.

(** The order is total. *)
Lemma lex_lt_trichotomy x y : lex_lt x y ∨ x = y ∨ lex_lt y x.
Proof.
  revert y. induction x as [|c x IH]; intros [|d y].
  - by right; left.
  - left. constructor.
  - right; right. constructor.
  - destruct (N.lt_trichotomy c d) as [Hlt|[->|Hgt]].
    + left. by apply lex_lt_head.
    + destruct (IH y) as [Hlt|[->|Hgt]].
      * left. by apply lex_lt_tail.
      * by right; left.
      * right; right. by apply lex_lt_tail.
    + right; right. by apply lex_lt_head.
Qed.

Lemma sort_le_lex x y : sort_le x y ↔ x = y ∨ lex_lt x y.
Proof.
  unfold sort_le. rewrite <- not_true_iff_false, str_lt_lex. split.
  - intros Hno. destruct (lex_lt_trichotomy x y) as [|[|]]; [by right|by left|done].
  - intros [->|Hlt] Hgt; [by eapply lex_lt_irrefl|].
    eapply lex_lt_irrefl, lex_lt_trans; eauto.
Qed.

Global Instance sort_le_total : Total sort_le.
Proof.
  intros x y. rewrite !sort_le_lex.
  destruct (lex_lt_trichotomy x y) as [|[|]]; auto.
Qed.

Global Instance sort_le_trans : Transitive sort_le.
Proof.
  intros x y z. rewrite !sort_le_lex.
  intros [->|Hxy] [->|Hyz]; auto. right. by eapply lex_lt_trans.
Qed.

Lemma StronglySorted_strict (l : list jsstring) :
  StronglySorted sort_le l → NoDup l → StronglySorted lex_lt l.
Proof.
  induction 1 as [|x l Hsorted IH Hall]; intros Hnodup; [constructor|].
  apply NoDup_cons in Hnodup as [Hnin Hnodup].
  constructor; [by apply IH|].
  apply Forall_forall. intros y Hy.
  rewrite Forall_forall in Hall.
  destruct (proj1 (sort_le_lex x y) (Hall y Hy)) as [->|]; done.
Qed.

Lemma StronglySorted_lex_NoDup (l : list jsstring) :
  StronglySorted lex_lt l → NoDup l.
Proof.
  induction 1 as [|x l Hsorted IH Hall]; constructor; [|done].
  intros Hin. rewrite Forall_forall in Hall.
  by apply (lex_lt_irrefl x), Hall.
Qed.

Lemma sort_elements (X : gset jsstring) :
  StronglySorted lex_lt (sort (elements X))
  ∧ ∀ name, name ∈ sort (elements X) ↔ name ∈ X.
Proof.
  unfold sort. split.
  - apply StronglySorted_strict; [apply StronglySorted_merge_sort; apply _|].
    rewrite merge_sort_Permutation. apply NoDup_elements.
  - intros name. by rewrite merge_sort_Permutation, elem_of_elements.
Qed.

(** ** [updateFileCache] *)

Lemma updateFileCache_spec filePath skipRefresh st :
  let st' := run (ManualScan.updateFileCache filePath skipRefresh) st in
  result (ManualScan.updateFileCache filePath skipRefresh) st = Normal ()
  ∧ vault st' = vault st ∧ notices st' = notices st ∧ opened st' = opened st
  ∧ match vault st !! filePath with
    | Some (File f) =>
        match data f with
        | Normal content =>
            linkCache st' = <[filePath := extractLinks content]> (linkCache st)
            ∧ refreshes st'
              = (if skipRefresh then refreshes st else S (refreshes st))
            ∧ console st' = console st
        | Throw e =>
            linkCache st' = linkCache st ∧ refreshes st' = refreshes st
            ∧ console st' = e :: console st
        end
    | _ => st' = st
    end.
Proof.
  unfold ManualScan.updateFileCache. unfold_M. simpl.
  destruct (vault st !! filePath) as [[f|]|]; simpl; [|done|done].
  destruct (data f) as [content|e]; simpl; [|done].
  by destruct skipRefresh.
Qed.

Lemma updateFileCache_vault filePath skipRefresh st :
  vault (run (ManualScan.updateFileCache filePath skipRefresh) st) = vault st.
Proof. apply updateFileCache_spec. Qed.

Lemma updateFileCache_result filePath skipRefresh st :
  ManualScan.updateFileCache filePath skipRefresh st
  = (Normal (), run (ManualScan.updateFileCache filePath skipRefresh) st).
Proof.
  pose proof (updateFileCache_spec filePath skipRefresh st) as [H _].
  unfold result, run in *.
  destruct (ManualScan.updateFileCache filePath skipRefresh st) as [[[]|] ?];
    simpl in *; congruence.
Qed.

Lemma updateFileCache_lookup filePath skipRefresh st path :
  linkCache (run (ManualScan.updateFileCache filePath skipRefresh) st) !! path
  = if decide (path = filePath) then entry_after st path
    else linkCache st !! path.
Proof.
  pose proof (updateFileCache_spec filePath skipRefresh st) as (_ & _ & _ & _ & H).
  unfold entry_after. simpl in H.
  destruct (decide (path = filePath)) as [->|Hne].
  - destruct (vault st !! filePath) as [[f|]|]; [|by rewrite H..].
    destruct (data f); destruct H as (-> & _); [|done].
    by rewrite lookup_insert_eq.
  - destruct (vault st !! filePath) as [[f|]|]; [|by rewrite H..].
    destruct (data f); destruct H as (-> & _); [|done].
    by rewrite lookup_insert_ne.
Qed.

(** ** The documents of the vault *)

Lemma elem_of_markdownFiles v path f :
  (path, f) ∈ markdownFiles v ↔
  v !! path = Some (File f) ∧ extension f = str "md".
Proof.
  unfold markdownFiles. rewrite list_elem_of_omap. split.
  - intros ([p [g|]] & Hin & Hsome); [|done].
    case_bool_decide; [|done]. injection Hsome as -> ->.
    by apply elem_of_map_to_list in Hin.
  - intros [Hlookup Hext]. exists (path, File f).
    split; [by apply elem_of_map_to_list|]. by rewrite bool_decide_eq_true_2.
Qed.

Lemma elem_of_document_paths st path :
  path ∈ (list_to_set (fst <$> markdownFiles (vault st)) : gset jsstring)
  ↔ is_document st path.
Proof.
  rewrite elem_of_list_to_set, list_elem_of_fmap. unfold is_document. split.
  - intros ([p f] & -> & Hin). exists f. by apply elem_of_markdownFiles.
  - intros (f & Hf). exists (path, f). split; [done|].
    by apply elem_of_markdownFiles.
Qed.

Lemma resolves_spec (paths : gset jsstring) link :
  ManualScan.resolves paths link = true ↔
  link ∈ paths ∨ link ++ str ".md" ∈ paths.
Proof.
  unfold ManualScan.resolves. simpl.
  rewrite !orb_true_iff, !bool_decide_eq_true. naive_solver.
Qed.

Lemma exists_check_spec st name :
  exists_check st name = true ↔ resolves_to_document st name.
Proof.
  unfold exists_check, resolves_to_document.
  by rewrite resolves_spec, !elem_of_document_paths.
Qed.

(** ** [getOrphans] *)

(** The set the two loops of [getOrphans] build. *)
Lemma orphan_loops_elem (paths : gset jsstring)
    (cache : gmap jsstring (gset jsstring)) name :
  name ∈ map_fold (λ _ (links : gset jsstring) (orphans : gset jsstring),
                     set_fold (λ link (orphans : gset jsstring),
                                 if negb (ManualScan.resolves paths link)
                                 then orphans ∪ {[ link ]} else orphans)
                              orphans links)
                  (∅ : gset jsstring) cache
  ↔ (∃ path links, cache !! path = Some links ∧ name ∈ links)
    ∧ ManualScan.resolves paths name = false.
Proof.
  assert (∀ (links acc : gset jsstring),
            name ∈ set_fold (λ link (orphans : gset jsstring),
                               if negb (ManualScan.resolves paths link)
                               then orphans ∪ {[ link ]} else orphans)
                            acc links
            ↔ name ∈ acc
              ∨ (name ∈ links ∧ ManualScan.resolves paths name = false))
    as Hinner.
  { intros links acc.
    apply (set_fold_ind_L (λ (r : gset jsstring) (X : gset jsstring),
             name ∈ r ↔ name ∈ acc
                        ∨ (name ∈ X ∧ ManualScan.resolves paths name = false))).
    - split; [by left|]. intros [|[Hin _]]; [done|].
      by apply not_elem_of_empty in Hin.
    - intros link X r Hnin IH.
      destruct (ManualScan.resolves paths link) eqn:Hres; simpl.
      + rewrite IH, elem_of_union, elem_of_singleton. split.
        * intros [|[? ?]]; auto.
        * intros [|[[->|?] ?]]; [auto|congruence|auto].
      + rewrite elem_of_union, IH, elem_of_union, !elem_of_singleton. split.
        * intros [[|[? ?]]| ->]; auto.
        * intros [|[[->|?] ?]]; auto. }
  apply (map_fold_weak_ind (λ (r : gset jsstring) (m : gmap jsstring (gset jsstring)),
           name ∈ r ↔ (∃ path links, m !! path = Some links ∧ name ∈ links)
                      ∧ ManualScan.resolves paths name = false)).
  - split; [intros Hin; by apply not_elem_of_empty in Hin|].
    intros [(path & links & Hlookup & _) _]. by rewrite lookup_empty in Hlookup.
  - intros path links m r Hfresh IH. rewrite Hinner, IH. split.
    + intros [[(path' & links' & Hlookup & Hin) Hres]|[Hin Hres]].
      * split; [|done]. exists path', links'. split; [|done].
        rewrite lookup_insert_ne; [done|]. intros ->. congruence.
      * split; [|done]. exists path, links. by rewrite lookup_insert_eq.
    + intros [(path' & links' & Hlookup & Hin) Hres].
      destruct (decide (path = path')) as [<-|Hne].
      * rewrite lookup_insert_eq in Hlookup. injection Hlookup as <-. by right.
      * rewrite lookup_insert_ne in Hlookup by done. left.
        split; [|done]. by exists path', links'.
Qed.

(** [getOrphans] never throws and leaves the state as it is. *)
Lemma getOrphans_pure st :
  ∃ orphans, ManualScan.getOrphans st = (Normal orphans, st).
Proof. unfold ManualScan.getOrphans. unfold_M. simpl. eauto. Qed.

Lemma getOrphans_spec st :
  ∃ orphans,
    result ManualScan.getOrphans st = Normal orphans
    ∧ StronglySorted lex_lt orphans
    ∧ ∀ name, name ∈ orphans ↔ indexed st name ∧ exists_check st name = false.
Proof.
  unfold ManualScan.getOrphans, indexed, exists_check. unfold_M. simpl.
  eexists. split; [done|].
  split; [apply sort_elements|].
  intros name. rewrite (proj2 (sort_elements _)). apply orphan_loops_elem.
Qed.

(** The query reads the vault and the index, nothing else. *)
Lemma getOrphans_reads st st' :
  vault st = vault st' → linkCache st = linkCache st' →
  result ManualScan.getOrphans st = result ManualScan.getOrphans st'.
Proof.
  unfold ManualScan.getOrphans. unfold_M. simpl. by intros -> ->.
Qed.

(** ** [buildCache] *)

Lemma for_of_updateFileCache (files : list (jsstring * TFile)) st :
  let loop := for_of files (λ file, ManualScan.updateFileCache (fst file) true) in
  result loop st = Normal ()
  ∧ vault (run loop st) = vault st
  ∧ ∀ path, linkCache (run loop st) !! path
            = if decide (path ∈ fst <$> files) then entry_after st path
              else linkCache st !! path.
Proof.
  revert st. induction files as [|[p f] files IH]; intros st; simpl.
  - split_and!; [done|done|]. intros path.
    destruct (decide (path ∈ [])) as [Hin|]; [|done]. by apply elem_of_nil in Hin.
  - unfold mbind, M_bind, run, result. rewrite updateFileCache_result.
    set (st1 := run (ManualScan.updateFileCache p true) st).
    destruct (IH st1) as (Hres & Hvault & Hcache).
    unfold run, result in Hres, Hvault, Hcache. simpl in *.
    split_and!; [done|by rewrite Hvault; apply updateFileCache_vault|].
    intros path. rewrite Hcache.
    assert (entry_after st1 path = entry_after st path) as Hentry.
    { unfold entry_after, st1.
      rewrite updateFileCache_vault, updateFileCache_lookup.
      destruct (decide (path = p)) as [->|]; [|done].
      unfold entry_after.
      destruct (vault st !! p) as [[g|]|]; [|done..]. by destruct (data g). }
    assert (linkCache st1 !! path
            = if decide (path = p) then entry_after st path
              else linkCache st !! path) as Hst1
      by apply updateFileCache_lookup.
    rewrite Hentry, Hst1.
    repeat case_decide; subst; try done;
      repeat match goal with
        | H : ¬ (_ ∈ _ :: _) |- _ => apply not_elem_of_cons in H as [? ?]
        | H : _ ∈ _ :: _ |- _ => apply elem_of_cons in H as [?|?]
        end; done.
Qed.

(** * The claims *)

(** C1. Extraction finds the markers [[[target]]] and [[[target|alias]]]
    of a text from left to right without overlap (the scan [ms], the only
    one the text has); a name is in the result exactly when it is not
    empty and is, for one of these markers, what stands between the double
    brackets, cut at the first [|] and trimmed of surrounding whitespace. A
    text without closing [[]]]] has no match and an empty result. On
    ["See [[Foo Bar|display]] and [[Baz]]"] the result is
    [{"Foo Bar", "Baz"}]. *)
Theorem extraction_correct :
  (∀ content : jsstring,
     ∃ ms,
       Scan content ms
       ∧ (∀ ms', Scan content ms' → ms' = ms)
       ∧ (∀ name, name ∈ extractLinks content ↔
                  name ≠ [] ∧ ∃ m, m ∈ ms ∧ link_of_marker m name)
       ∧ (has_closing content = false → ms = [] ∧ extractLinks content = ∅))
  ∧ extractLinks (str "See [[Foo Bar|display]] and [[Baz]]")
    = {[ str "Foo Bar"; str "Baz" ]}.
Proof.
  split; [|by vm_compute].
  intros content.
  pose proof (match_all_Scan content) as Hscan.
  assert (∀ name, name ∈ extractLinks content ↔
                  name ≠ [] ∧ ∃ m, m ∈ Regex.match_all link_pattern content
                                   ∧ link_of_marker m name) as Helem.
  { intros name. rewrite extractLinks_elem. split.
    - intros (Hne & m & Hin & ->). split; [done|]. exists m. split; [done|].
      destruct (Scan_marker_elem _ _ _ Hscan Hin) as (body & Hm).
      by eapply linkName_of_marker.
    - intros (Hne & m & Hin & Hlink). split; [done|]. exists m.
      split; [done|]. by apply link_of_marker_unique. }
  exists (Regex.match_all link_pattern content). split_and!; [done| |done|].
  - intros ms' Hscan'. by eapply Scan_deterministic.
  - intros Hno.
    assert (Regex.match_all link_pattern content = []) as Hnil.
    { eapply Scan_deterministic; [done|].
      apply Scan_done. by apply no_closing_no_marker. }
    split; [done|]. apply set_eq. intros name. rewrite Helem, Hnil. split.
    + intros (_ & m & Hin & _). by apply elem_of_nil in Hin.
    + intros Hin. by apply not_elem_of_empty in Hin.
Qed.

Lemma extraction_correct_witness :
  extractLinks (str "Draft: [[Foo Bar|display and [Baz]") = ∅.
Proof.
  destruct (proj1 extraction_correct (str "Draft: [[Foo Bar|display and [Baz]"))
    as (ms & _ & _ & _ & Hno).
  apply Hno. reflexivity.
Defined.

(** C2. A link name resolves, for the existence check of [getOrphans],
    exactly when the store has a document with that very identity or with
    the identity followed by [.md]; an indexed name is reported as an
    orphan exactly when it does not resolve. In particular, in every store
    where the document ["Target.md"] exists, ["Target"] is not reported. *)
Theorem resolution_suffix_convention :
  (∀ st name,
     (exists_check st name = true ↔
      is_document st name ∨ is_document st (name ++ str ".md"))
     ∧ ∃ orphans,
         result ManualScan.getOrphans st = Normal orphans
         ∧ (name ∈ orphans ↔
            indexed st name
            ∧ ¬ (is_document st name ∨ is_document st (name ++ str ".md"))))
  ∧ (∀ st, is_document st (str "Target.md") →
       ∃ orphans,
         result ManualScan.getOrphans st = Normal orphans
         ∧ str "Target" ∉ orphans).
Proof.
  assert (∀ st name,
            ∃ orphans,
              result ManualScan.getOrphans st = Normal orphans
              ∧ (name ∈ orphans ↔
                 indexed st name ∧ ¬ resolves_to_document st name)) as Horphans.
  { intros st name. destruct (getOrphans_spec st) as (orphans & Hres & _ & Helem).
    exists orphans. split; [done|].
    by rewrite Helem, <- exists_check_spec, not_true_iff_false. }
  split.
  - intros st name. split; [apply exists_check_spec|apply Horphans].
  - intros st Hdoc. destruct (Horphans st (str "Target")) as (orphans & Hres & Helem).
    exists orphans. split; [done|]. rewrite Helem. intros [_ Hno].
    apply Hno. by right.
Qed.

Lemma resolution_suffix_convention_witness :
  ∃ orphans,
    result ManualScan.getOrphans
      (run (ManualScan.updateFileCache (str "Index.md") false)
         (store_write (str "Index.md") (str "md") (str "[[Target]] [[Other]]")
            (store_write (str "Target.md") (str "md") [] initial)))
    = Normal orphans
    ∧ str "Target" ∉ orphans.
Proof.
  apply (proj2 resolution_suffix_convention).
  eexists. split; [by vm_compute|reflexivity].
Defined.

(** C3. For every state of the index and of the store, the orphans query
    returns a list without duplicates, strictly ascending in the
    lexicographic order of code units (a total, case-sensitive order),
    whose elements are exactly the names of the indexed value-sets on which
    the existence check fails. With the unresolved names ["zeta"],
    ["alpha"], ["Beta"] it returns [["Beta"; "alpha"; "zeta"]]. *)
Theorem orphans_sorted_dedup :
  (∀ st,
     ∃ orphans,
       result ManualScan.getOrphans st = Normal orphans
       ∧ NoDup orphans
       ∧ StronglySorted lex_lt orphans
       ∧ ∀ name, name ∈ orphans ↔
                 indexed st name ∧ exists_check st name = false)
  ∧ (∀ x y, lex_lt x y ∨ x = y ∨ lex_lt y x)
  ∧ (∀ x y, lex_lt x y ↔ str_lt x y = true)
  ∧ result ManualScan.getOrphans
      (run (ManualScan.updateFileCache (str "Notes.md") false)
         (store_write (str "Notes.md") (str "md")
            (str "[[zeta]] then [[alpha]], [[Beta]] and [[zeta|again]]") initial))
    = Normal [str "Beta"; str "alpha"; str "zeta"].
Proof.
  split_and!.
  - intros st. destruct (getOrphans_spec st) as (orphans & Hres & Hsorted & Helem).
    exists orphans. split_and!; [done| |done|done].
    by apply StronglySorted_lex_NoDup.
  - apply lex_lt_trichotomy.
  - intros x y. by rewrite str_lt_lex.
  - by vm_compute.
Qed.

(** C4. The orphans query keeps nothing between calls: it leaves the state
    as it found it and its result is a function of the index and the store
    at the time of the call. So a name whose document [name.md] has come to
    exist is not reported by the next call, whatever the index holds. From
    the empty store: after the upsert of ["A.md"] with ["[[Ghost]]"] the
    query returns [["Ghost"]]; once the store holds ["Ghost.md"], with the
    index untouched, it returns [[]]. *)
Theorem orphans_computed_fresh :
  (∀ st, run ManualScan.getOrphans st = st)
  ∧ (∀ st st', vault st = vault st' → linkCache st = linkCache st' →
       result ManualScan.getOrphans st = result ManualScan.getOrphans st')
  ∧ (∀ st name content,
       let st' := store_write (name ++ str ".md") (str "md") content st in
       linkCache st' = linkCache st
       ∧ ∃ orphans, result ManualScan.getOrphans st' = Normal orphans
                    ∧ name ∉ orphans)
  ∧ (let st0 := run ManualScan.onload initial in
     let st1 := run (ManualScan.updateFileCache (str "A.md") false)
                  (store_write (str "A.md") (str "md") (str "[[Ghost]]") st0) in
     let st2 := store_write (str "Ghost.md") (str "md") [] st1 in
     linkCache st0 = ∅
     ∧ result ManualScan.getOrphans st1 = Normal [str "Ghost"]
     ∧ linkCache st2 = linkCache st1
     ∧ result ManualScan.getOrphans st2 = Normal []).
Proof.
  split_and!.
  - intros st. destruct (getOrphans_pure st) as (orphans & Heq).
    unfold run. by rewrite Heq.
  - apply getOrphans_reads.
  - intros st name content. simpl. split; [done|].
    set (st' := store_write _ _ _ _).
    destruct (getOrphans_spec st') as (orphans & Hres & _ & Helem).
    exists orphans. split; [done|]. rewrite Helem.
    intros [_ Hcheck]. apply not_true_iff_false in Hcheck. apply Hcheck.
    apply exists_check_spec. right. unfold is_document, st', store_write. simpl.
    eexists. by rewrite lookup_insert_eq.
  - by vm_compute.
Qed.

Lemma orphans_computed_fresh_witness :
  result ManualScan.getOrphans
    (run (ManualScan.refreshView ;; Notice (str "Created: Ghost.md"))
       (run (ManualScan.updateFileCache (str "A.md") false)
          (store_write (str "A.md") (str "md") (str "[[Ghost]]") initial)))
  = result ManualScan.getOrphans
      (run (ManualScan.updateFileCache (str "A.md") false)
         (store_write (str "A.md") (str "md") (str "[[Ghost]]") initial)).
Proof.
  apply (proj1 (proj2 orphans_computed_fresh)); reflexivity.
Defined.

(** C5. [updateFileCache] replaces the value-set of its key wholesale:
    whatever the index held, after the upsert of a readable document the
    entry at its identity is the set extracted from the content it has now.
    For every identity, the upsert with ["[[A]]"] and then with ["[[B]]"]
    leaves the value-set [{"B"}], not [{"A", "B"}]. *)
Theorem upsert_replaces_wholesale :
  (∀ st id ext content skipRefresh,
     linkCache (run (ManualScan.updateFileCache id skipRefresh)
                  (store_write id ext content st)) !! id
     = Some (extractLinks content))
  ∧ (∀ st id ext,
       let st1 := run (ManualScan.updateFileCache id false)
                    (store_write id ext (str "[[A]]") st) in
       let st2 := run (ManualScan.updateFileCache id false)
                    (store_write id ext (str "[[B]]") st1) in
       linkCache st1 !! id = Some {[ str "A" ]}
       ∧ linkCache st2 !! id = Some {[ str "B" ]}
       ∧ linkCache st2 !! id ≠ Some {[ str "A"; str "B" ]}).
Proof.
  assert (∀ st id ext content skipRefresh,
            linkCache (run (ManualScan.updateFileCache id skipRefresh)
                         (store_write id ext content st)) !! id
            = Some (extractLinks content)) as Hupsert.
  { intros st id ext content skipRefresh.
    rewrite updateFileCache_lookup, decide_True by done.
    unfold entry_after, store_write. simpl. by rewrite lookup_insert_eq. }
  split; [done|]. intros st id ext. simpl. rewrite !Hupsert.
  split_and!; [by vm_compute|by vm_compute|].
  apply (bool_decide_unpack _). by vm_compute.
Qed.

(** C7. [updateFileCache] is idempotent on the index: run a second time on
    the same document, with the store as it was, it leaves the index the
    first run left; so does a second upsert of the same content. *)
Theorem upsert_idempotent :
  (∀ st id skipRefresh skipRefresh',
     linkCache (run (ManualScan.updateFileCache id skipRefresh')
                  (run (ManualScan.updateFileCache id skipRefresh) st))
     = linkCache (run (ManualScan.updateFileCache id skipRefresh) st))
  ∧ (∀ st id ext content,
       let upsert st :=
         run (ManualScan.updateFileCache id false) (store_write id ext content st) in
       linkCache (upsert (upsert st)) = linkCache (upsert st)).
Proof.
  split.
  - intros st id skip skip'. apply map_eq. intros path.
    rewrite !updateFileCache_lookup.
    destruct (decide (path = id)) as [->|]; [|done].
    unfold entry_after. rewrite updateFileCache_vault, updateFileCache_lookup.
    rewrite decide_True by done. unfold entry_after.
    destruct (vault st !! id) as [[f|]|]; [|done..]. by destruct (data f).
  - intros st id ext content. simpl. apply map_eq. intros path.
    rewrite updateFileCache_lookup. cbn [linkCache store_write].
    rewrite !updateFileCache_lookup. cbn [linkCache store_write].
    destruct (decide (path = id)) as [->|]; [|done].
    unfold entry_after, store_write. simpl. by rewrite !lookup_insert_eq.
Qed.

(** C10. Where the vault has no file at the path (nothing, or a folder),
    [updateFileCache] returns at once: the whole state is unchanged, the
    index at every key and the count of refresh notifications included, and
    nothing is thrown. *)
Theorem updateFileCache_without_file st filePath skipRefresh :
  (∀ f, vault st !! filePath ≠ Some (File f)) →
  ManualScan.updateFileCache filePath skipRefresh st = (Normal (), st).
Proof.
  intros Hno. rewrite updateFileCache_result. f_equal.
  pose proof (updateFileCache_spec filePath skipRefresh st) as (_ & _ & _ & _ & H).
  simpl in H. destruct (vault st !! filePath) as [[f|]|]; [|done..].
  by destruct (Hno f).
Qed.

Lemma updateFileCache_without_file_witness :
  let st := run (ManualScan.updateFileCache (str "A.md") false)
              (store_write (str "A.md") (str "md") (str "[[Ghost]]") initial) in
  ManualScan.updateFileCache (str "Gone.md") false st = (Normal (), st).
Proof.
  apply updateFileCache_without_file. intros f. by vm_compute.
Defined.

(** C6. A rename changes the key: the old and the new identity differ.
    For every such pair, when the old identity is indexed the rename
    handler leaves its value-set, unchanged, at the new identity, no entry
    at the old one, and every other entry as it was. For every pair of
    identities, when the old one is not indexed the index is left as it
    was, and no entry is made at the new identity. The handler never
    throws. *)
Theorem rename_moves_entry st oldId newId :
  let st' := run (ManualScan.on_rename newId oldId) st in
  result (ManualScan.on_rename newId oldId) st = Normal ()
  ∧ (∀ links, linkCache st !! oldId = Some links → oldId ≠ newId →
       linkCache st' !! newId = Some links
       ∧ linkCache st' !! oldId = None
       ∧ ∀ id, id ≠ oldId → id ≠ newId →
               linkCache st' !! id = linkCache st !! id)
  ∧ (linkCache st !! oldId = None →
       linkCache st' = linkCache st
       ∧ linkCache st' !! newId = linkCache st !! newId).
Proof.
  unfold ManualScan.on_rename. unfold_M. simpl.
  destruct (linkCache st !! oldId) as [links|] eqn:Hold; simpl.
  - split_and!; [done| |done].
    intros ? [= <-] Hne. split_and!.
    + by rewrite lookup_delete_ne, lookup_insert_eq.
    + by rewrite lookup_delete_eq.
    + intros id ? ?. by rewrite lookup_delete_ne, lookup_insert_ne.
  - split_and!; done.
Qed.

Lemma rename_moves_entry_witness :
  let st := run (ManualScan.updateFileCache (str "id1.md") false)
              (store_write (str "id1.md") (str "md") (str "[[X]]") initial) in
  let st' := run (ManualScan.on_rename (str "id2.md") (str "id1.md")) st in
  linkCache st' !! str "id2.md" = Some {[ str "X" ]}
  ∧ linkCache st' !! str "id1.md" = None.
Proof.
  intros st st'.
  destruct (rename_moves_entry st (str "id1.md") (str "id2.md"))
    as (_ & Hmove & _).
  destruct (Hmove {[ str "X" ]}) as (Hnew & Hold & _);
    [by vm_compute|by vm_compute|].
  by split.
Defined.

(** [createFile] of the revision with the manual scan, on a path that is
    taken: the failure notice, and nothing else. *)
Lemma createFile_taken `{Host} st linkName :
  let fileName :=
    if endsWith linkName (str ".md") then linkName else linkName ++ str ".md" in
  is_Some (vault st !! fileName) →
  ManualScan.createFile linkName st
  = Notice (str "Failed to create file: " ++ message exists_error) st.
Proof.
  intros fileName [file Hfile]. unfold ManualScan.createFile, vault_create.
  unfold try_catch, mbind, M_bind. fold fileName. by rewrite Hfile.
Qed.

(** C8. In the revision with the manual scan, [createFile] on a link name
    whose target exists: [vault.create] rejects, the catch shows the
    notice of a failed creation, and the existing document is not opened.
    Nothing is thrown and the index and the store are as before. *)
Theorem createFile_existing_target_not_opened `{Host} st content :
  let st0 := store_write (str "Ghost.md") (str "md") content st in
  let st' := run (ManualScan.createFile (str "Ghost")) st0 in
  result (ManualScan.createFile (str "Ghost")) st0 = Normal ()
  ∧ opened st' = opened st0
  ∧ notices st'
    = (str "Failed to create file: " ++ message exists_error) :: notices st0
  ∧ linkCache st' = linkCache st0
  ∧ vault st' = vault st0.
Proof.
  intros st0 st'. unfold st', run, result. rewrite createFile_taken.
  - split_and!; reflexivity.
  - change (is_Some (vault st0 !! str "Ghost.md")).
    unfold st0, store_write. cbn [vault]. rewrite lookup_insert_eq. eauto.
Qed.

(** The revision that looks the path up first does what C8 says: the
    existing document is opened, a notice says so, nothing is thrown, and
    the index is as before. *)
Lemma createFile_opens_existing `{Host} st linkName f :
  let fileName :=
    if endsWith linkName (str ".md") then linkName else linkName ++ str ".md" in
  vault st !! normalizePath fileName = Some (File f) →
  let st' := run (VaultLookup.createFile linkName) st in
  result (VaultLookup.createFile linkName) st = Normal ()
  ∧ opened st' = normalizePath fileName :: opened st
  ∧ notices st'
    = (str "Opened existing file: " ++ normalizePath fileName) :: notices st
  ∧ linkCache st' = linkCache st
  ∧ vault st' = vault st.
Proof.
  intros fileName Hfile. unfold VaultLookup.createFile, openFile. unfold_M.
  fold fileName. by rewrite Hfile.
Qed.

(** C9. [buildCache] never throws. A markdown document that reads gets the
    set extracted from its content; one whose read fails keeps the entry it
    had (stale) or stays without one. Whatever fails elsewhere, the links of
    a document that reads are reported by the next orphans query when they
    do not resolve. *)
Theorem buildCache_isolates_failures st :
  let st' := run ManualScan.buildCache st in
  result ManualScan.buildCache st = Normal ()
  ∧ vault st' = vault st
  ∧ (∀ path f, vault st !! path = Some (File f) → extension f = str "md" →
       match data f with
       | Normal content => linkCache st' !! path = Some (extractLinks content)
       | Throw _ => linkCache st' !! path = linkCache st !! path
       end)
  ∧ (∀ path f content name,
       vault st !! path = Some (File f) → extension f = str "md" →
       data f = Normal content → name ∈ extractLinks content →
       exists_check st' name = false →
       ∃ orphans, result ManualScan.getOrphans st' = Normal orphans
                  ∧ name ∈ orphans).
Proof.
  destruct (for_of_updateFileCache (markdownFiles (vault st)) st)
    as (Hres & Hvault & Hcache).
  assert (∀ path f, vault st !! path = Some (File f) → extension f = str "md" →
            linkCache (run ManualScan.buildCache st) !! path
            = match data f with
              | Normal content => Some (extractLinks content)
              | Throw _ => linkCache st !! path
              end) as Hentry.
  { intros path f Hfile Hext.
    unfold ManualScan.buildCache, getMarkdownFiles, mbind, M_bind, run. simpl.
    unfold run in Hcache. rewrite Hcache, decide_True.
    - unfold entry_after. by rewrite Hfile.
    - apply list_elem_of_fmap. exists (path, f). split; [done|].
      by apply elem_of_markdownFiles. }
  simpl. split_and!.
  - done.
  - done.
  - intros path f Hfile Hext. rewrite (Hentry path f) by done. by destruct (data f).
  - intros path f content name Hfile Hext Hdata Hname Hcheck.
    destruct (getOrphans_spec (run ManualScan.buildCache st))
      as (orphans & Hq & _ & Helem).
    exists orphans. split; [done|]. apply Helem. split; [|done].
    exists path, (extractLinks content). split; [|done].
    by rewrite (Hentry path f), Hdata.
Qed.

Lemma buildCache_isolates_failures_witness :
  let st :=
    {| vault := {[ str "Bad.md" := File {| extension := str "md";
                                          data := Throw (Error (str "EIO")) |};
                   str "Good.md" := File {| extension := str "md";
                                           data := Normal (str "[[Ghost]]") |} ]};
       linkCache := {[ str "Bad.md" := {[ str "Old" ]} ]};
       refreshes := 0; console := []; notices := []; opened := [] |} in
  ∃ orphans,
    result ManualScan.getOrphans (run ManualScan.buildCache st) = Normal orphans
    ∧ str "Ghost" ∈ orphans.
Proof.
  intros st.
  destruct (buildCache_isolates_failures st) as (_ & _ & _ & Horphans).
  apply (Horphans (str "Good.md")
           {| extension := str "md"; data := Normal (str "[[Ghost]]") |}
           (str "[[Ghost]]")); by vm_compute.
Defined.

(** * Further properties of the code *)

(** ** Helpers *)

Lemma on_create_result path file st :
  ManualScan.on_create path file st
  = (Normal (), run (ManualScan.on_create path file) st).
Proof.
  unfold ManualScan.on_create. destruct file as [f|]; [|done].
  case_bool_decide; [|done]. apply updateFileCache_result.
Qed.

Lemma store_write_document st path content other :
  is_document (store_write path (str "md") content st) other
  ↔ other = path ∨ is_document st other.
Proof.
  unfold is_document, store_write. simpl. split.
  - intros (f & Hf & Hext). destruct (decide (other = path)) as [->|Hne];
      [by left|right].
    rewrite lookup_insert_ne in Hf by done. by exists f.
  - intros [->|(f & Hf & Hext)].
    + eexists. by rewrite lookup_insert_eq.
    + destruct (decide (other = path)) as [->|Hne].
      * eexists. by rewrite lookup_insert_eq.
      * exists f. by rewrite lookup_insert_ne.
Qed.

(** The query, as a list and its membership. *)
Lemma getOrphans_elem st :
  ∃ orphans,
    ManualScan.getOrphans st = (Normal orphans, st)
    ∧ StronglySorted lex_lt orphans
    ∧ ∀ name, name ∈ orphans ↔
              indexed st name ∧ ¬ resolves_to_document st name.
Proof.
  destruct (getOrphans_pure st) as (orphans & Heq).
  destruct (getOrphans_spec st) as (orphans' & Hres & Hsorted & Helem).
  unfold result in Hres. rewrite Heq in Hres. injection Hres as <-.
  exists orphans. split_and!; [done..|].
  intros name. by rewrite Helem, <- exists_check_spec, not_true_iff_false.
Qed.

(** ** The ["delete"] listener *)

(** X1. The listener of ["delete"] removes the entry of the path and no
    other, tells the panels once, and never throws; on a path that is not
    indexed the index stays as it was. A name that only the deleted document
    linked to is not reported by the next query. *)
Theorem delete_cleans_index st path :
  let st' := run (ManualScan.on_delete path) st in
  result (ManualScan.on_delete path) st = Normal ()
  ∧ linkCache st' !! path = None
  ∧ (∀ other, other ≠ path → linkCache st' !! other = linkCache st !! other)
  ∧ (linkCache st !! path = None → linkCache st' = linkCache st)
  ∧ refreshes st' = S (refreshes st)
  ∧ vault st' = vault st
  ∧ (∀ name,
       (∀ other links, other ≠ path → linkCache st !! other = Some links →
                       name ∉ links) →
       ∃ orphans, result ManualScan.getOrphans st' = Normal orphans
                  ∧ name ∉ orphans).
Proof.
  intros st'.
  assert (linkCache st' = delete path (linkCache st)) as Hcache by done.
  split_and!; try done.
  - by rewrite Hcache, lookup_delete_eq.
  - intros other Hne. by rewrite Hcache, lookup_delete_ne.
  - intros Hnone. rewrite Hcache. by apply delete_id.
  - intros name Honly.
    destruct (getOrphans_elem st') as (orphans & Heq & _ & Helem).
    exists orphans. unfold result. rewrite Heq. split; [done|].
    rewrite Helem. intros [(other & links & Hlookup & Hin) _].
    rewrite Hcache in Hlookup.
    destruct (decide (other = path)) as [->|Hne].
    + by rewrite lookup_delete_eq in Hlookup.
    + rewrite lookup_delete_ne in Hlookup by done. by eapply Honly.
Qed.

(** ** The ["create"] and ["modify"] listeners *)

(** X2. The listeners of ["create"] and ["modify"] do nothing for a folder
    or for a file whose extension is not [md]: the state is the same, no
    panel is told, nothing is thrown. *)
Theorem listeners_ignore_other_files st path file :
  (∀ f, file = File f → extension f ≠ str "md") →
  ManualScan.on_create path file st = (Normal (), st)
  ∧ ManualScan.on_modify path file st = (Normal (), st).
Proof.
  intros Hother. split.
  all: unfold ManualScan.on_create, ManualScan.on_modify.
  all: destruct file as [f|]; [|done].
  all: rewrite bool_decide_eq_false_2; [done|by apply Hother].
Qed.

Lemma listeners_ignore_other_files_witness :
  let st := store_write (str "pic.png") (str "png") (str "[[Ghost]]") initial in
  let file := File {| extension := str "png"; data := Normal (str "[[Ghost]]") |} in
  ManualScan.on_create (str "pic.png") file st = (Normal (), st)
  ∧ ManualScan.on_modify (str "pic.png") file st = (Normal (), st).
Proof.
  apply listeners_ignore_other_files. intros f [= <-]. by vm_compute.
Defined.

(** ** [updateFileCache] *)

(** X3. When the read of the file rejects, [updateFileCache] logs the
    error on the console and returns normally: the index keeps what it had
    (so the next query reports what it reported before), and no panel is
    told. *)
Theorem read_failure_is_logged st path f e skipRefresh :
  vault st !! path = Some (File f) → data f = Throw e →
  let st' := run (ManualScan.updateFileCache path skipRefresh) st in
  result (ManualScan.updateFileCache path skipRefresh) st = Normal ()
  ∧ console st' = e :: console st
  ∧ linkCache st' = linkCache st
  ∧ refreshes st' = refreshes st
  ∧ vault st' = vault st
  ∧ result ManualScan.getOrphans st' = result ManualScan.getOrphans st.
Proof.
  intros Hfile Hdata.
  pose proof (updateFileCache_spec path skipRefresh st)
    as (Hres & Hvault & _ & _ & H).
  simpl in *. rewrite Hfile, Hdata in H. destruct H as (Hcache & Hrefresh & Hconsole).
  split_and!; try done. by apply getOrphans_reads.
Qed.

Lemma read_failure_is_logged_witness :
  let st :=
    {| vault := {[ str "Bad.md" := File {| extension := str "md";
                                          data := Throw (Error (str "EIO")) |} ]};
       linkCache := {[ str "Bad.md" := {[ str "Old" ]} ]};
       refreshes := 0; console := []; notices := []; opened := [] |} in
  let st' := run (ManualScan.updateFileCache (str "Bad.md") false) st in
  console st' = [Error (str "EIO")] ∧ linkCache st' = linkCache st.
Proof.
  intros st st'.
  destruct (read_failure_is_logged st (str "Bad.md")
              {| extension := str "md"; data := Throw (Error (str "EIO")) |}
              (Error (str "EIO")) false) as (_ & Hconsole & Hcache & _);
    [by vm_compute|done|].
  by split.
Defined.

(** X4. [updateFileCache] on a path changes no entry of another path, never
    the store, the notices or the opened files; it tells the panels at most
    once, and not at all when asked to skip the refresh. *)
Theorem updateFileCache_touches_one_entry st path skipRefresh :
  let st' := run (ManualScan.updateFileCache path skipRefresh) st in
  (∀ other, other ≠ path → linkCache st' !! other = linkCache st !! other)
  ∧ vault st' = vault st
  ∧ notices st' = notices st
  ∧ opened st' = opened st
  ∧ (refreshes st' = refreshes st ∨ refreshes st' = S (refreshes st))
  ∧ (skipRefresh = true → refreshes st' = refreshes st).
Proof.
  pose proof (updateFileCache_spec path skipRefresh st)
    as (_ & Hvault & Hnotices & Hopened & H).
  simpl in *. split_and!; try done.
  - intros other Hne. by rewrite updateFileCache_lookup, decide_False.
  - destruct (vault st !! path) as [[f|]|]; [|left; by rewrite H..].
    destruct (data f); destruct H as (_ & -> & _); [|by left].
    destruct skipRefresh; auto.
  - intros ->. destruct (vault st !! path) as [[f|]|]; [|by rewrite H..].
    by destruct (data f); destruct H as (_ & -> & _).
Qed.

(** ** The names the index holds *)

Lemma Scan_elem_occurs s ms m :
  Scan s ms → m ∈ ms → ∃ pre post, s = pre ++ m ++ post.
Proof.
  induction 1 as [|pre body m' post ms Hm _ _ IH]; intros Hin.
  - by apply elem_of_nil in Hin.
  - apply elem_of_cons in Hin as [->|Hin]; [by exists pre, post|].
    destruct (IH Hin) as (pre' & post' & ->).
    exists (pre ++ m' ++ pre'), post'. by rewrite <- !app_assoc.
Qed.

Lemma link_of_marker_wf m name :
  link_of_marker m name → name ≠ [] →
  wf_name name ∧ ∃ pre post, m = pre ++ name ++ post.
Proof.
  intros (body & target & (-> & _ & Hbrack) & (Hpipe & Hbody)
          & (l & r & -> & _ & _ & Hhead & Hlast)) Hne.
  assert (∃ rest, body = (l ++ name ++ r) ++ rest) as (rest & ->).
  { destruct Hbody as [->|(alias & ->)]; [exists []; by rewrite app_nil_r|eauto]. }
  split.
  - split_and!; [done| | |done|done].
    + intros Hin. apply Hpipe. rewrite !elem_of_app. auto.
    + intros Hin. apply Hbrack. rewrite !elem_of_app. auto.
  - exists (str "[[" ++ l), (r ++ rest ++ str "]]"). by rewrite <- !app_assoc.
Qed.

Lemma extractLinks_names_wf content name :
  name ∈ extractLinks content → wf_name name.
Proof.
  intros (Hne & m & Hin & ->)%extractLinks_elem.
  destruct (Scan_marker_elem _ _ _ (match_all_Scan content) Hin) as (body & Hm).
  by apply (link_of_marker_wf m); [eapply linkName_of_marker|].
Qed.

(** X5. Every name [extractLinks] returns is well formed (not empty, no
    [|], no []], no whitespace at either end) and is a piece of the
    content: the extraction invents no name. *)
Theorem extracted_names_are_pieces_of_content content name :
  name ∈ extractLinks content →
  wf_name name ∧ ∃ pre post, content = pre ++ name ++ post.
Proof.
  intros (Hne & m & Hin & ->)%extractLinks_elem.
  pose proof (match_all_Scan content) as Hscan.
  destruct (Scan_marker_elem _ _ _ Hscan Hin) as (body & Hm).
  destruct (link_of_marker_wf m (linkName_of m)) as (Hwf & pre & post & Hocc);
    [by eapply linkName_of_marker|done|].
  split; [done|].
  destruct (Scan_elem_occurs _ _ _ Hscan Hin) as (pre' & post' & ->).
  exists (pre' ++ pre), (post ++ post'). rewrite Hocc at 1.
  by rewrite <- !app_assoc.
Qed.

Lemma extracted_names_are_pieces_of_content_witness :
  wf_name (str "Foo Bar")
  ∧ ∃ pre post,
      str "See [[ Foo Bar |display]] and [[Baz]]" = pre ++ str "Foo Bar" ++ post.
Proof.
  apply extracted_names_are_pieces_of_content. by vm_compute.
Defined.

(** ** [createFile] *)

Lemma createFile_cases `{Host} st linkName :
  let fileName :=
    if endsWith linkName (str ".md") then linkName else linkName ++ str ".md" in
  (∃ e, ManualScan.createFile linkName st
        = Notice (str "Failed to create file: " ++ message e) st
        ∧ (is_Some (vault st !! fileName) ∨ rejects fileName = Some e))
  ∨ (vault st !! fileName = None ∧ rejects fileName = None
     ∧ let file := File {| extension := extname fileName; data := Normal [] |} in
       let st1 := run (ManualScan.on_create fileName file)
                    (store_set (<[fileName := file]> (vault st)) st) in
       ManualScan.createFile linkName st
       = (Normal (),
          {| vault := vault st1; linkCache := linkCache st1;
             refreshes := refreshes st1; console := console st1;
             notices := (str "Created: " ++ fileName) :: notices st1;
             opened := fileName :: opened st1 |})).
Proof.
  intros fileName. unfold ManualScan.createFile, vault_create.
  unfold try_catch, mbind, M_bind. fold fileName.
  destruct (vault st !! fileName) as [taken|] eqn:Htaken.
  { left. exists exists_error. split; [done|]. left. eauto. }
  destruct (rejects fileName) as [e|] eqn:Hrejects.
  { left. exists e. split; [done|]. by right. }
  right. split_and!; [done..|].
  by rewrite on_create_result.
Qed.

Lemma endsWith_app (s suffix : jsstring) : endsWith (s ++ suffix) suffix = true.
Proof.
  unfold endsWith. rewrite length_app.
  replace (length s + length suffix - length suffix)%nat with (length s) by lia.
  rewrite drop_app_length.
  rewrite !bool_decide_eq_true_2; [done|lia|done].
Qed.

(** X6. [createFile] on a link name whose file the vault accepts: the file
    is created empty at the name, with [.md] added unless the name ends in
    it; it is opened; the notice says so; through the ["create"] listener
    the new document is indexed with no link and the panels are told once.
    The link name is not reported by the next query. *)
Theorem createFile_adopts_orphan `{Host} st linkName :
  let fileName :=
    if endsWith linkName (str ".md") then linkName else linkName ++ str ".md" in
  vault st !! fileName = None → rejects fileName = None →
  extname fileName = str "md" →
  let st' := run (ManualScan.createFile linkName) st in
  result (ManualScan.createFile linkName) st = Normal ()
  ∧ endsWith fileName (str ".md") = true
  ∧ vault st' = <[fileName := File {| extension := str "md"; data := Normal [] |}]>
                  (vault st)
  ∧ opened st' = fileName :: opened st
  ∧ notices st' = (str "Created: " ++ fileName) :: notices st
  ∧ linkCache st' = <[fileName := ∅]> (linkCache st)
  ∧ refreshes st' = S (refreshes st)
  ∧ ∃ orphans, result ManualScan.getOrphans st' = Normal orphans
               ∧ linkName ∉ orphans.
Proof.
  intros fileName Hfree Haccepts Hext st'.
  destruct (createFile_cases st linkName) as [(e & _ & [[? Htaken]|Hrej])|(_ & _ & Heq)].
  { fold fileName in Htaken. congruence. }
  { fold fileName in Hrej. congruence. }
  fold fileName in Heq. cbv zeta in Heq. rewrite Hext in Heq.
  set (file := {| extension := str "md"; data := Normal [] |}) in *.
  set (st0 := store_set (<[fileName := File file]> (vault st)) st) in *.
  assert (vault st0 !! fileName = Some (File file)) as Hfile
    by (unfold st0, store_set; simpl; by rewrite lookup_insert_eq).
  pose proof (updateFileCache_spec fileName false st0)
    as (_ & Hvault & Hnotices & Hopened & Hupd).
  rewrite Hfile in Hupd. cbn [data file] in Hupd.
  destruct Hupd as (Hcache & Hrefresh & _).
  assert (ManualScan.on_create fileName (File file)
          = ManualScan.updateFileCache fileName false) as Hlistener.
  { unfold ManualScan.on_create, file. cbn [extension].
    by rewrite bool_decide_eq_true_2. }
  rewrite Hlistener in Heq.
  assert (st' = snd (ManualScan.createFile linkName st)) as Hst' by done.
  rewrite Heq in Hst'. simpl in Hst'.
  assert (is_document st' fileName) as Hdoc.
  { exists file. rewrite Hst'. simpl. by rewrite Hvault. }
  split_and!.
  - unfold result. by rewrite Heq.
  - unfold fileName. destruct (endsWith linkName (str ".md")) eqn:Hends; [done|].
    apply endsWith_app.
  - rewrite Hst'. simpl. by rewrite Hvault.
  - rewrite Hst'. simpl. by rewrite Hopened.
  - rewrite Hst'. simpl. by rewrite Hnotices.
  - rewrite Hst'. simpl. by rewrite Hcache.
  - rewrite Hst'. simpl. by rewrite Hrefresh.
  - destruct (getOrphans_elem st') as (orphans & Hq & _ & Helem).
    exists orphans. unfold result. rewrite Hq. split; [done|].
    rewrite Helem. intros [_ Hno]. apply Hno. unfold resolves_to_document.
    unfold fileName in Hdoc.
    destruct (endsWith linkName (str ".md")); [by left|by right].
Qed.

Lemma createFile_adopts_orphan_witness :
  let st := run (ManualScan.updateFileCache (str "A.md") false)
              (store_write (str "A.md") (str "md") (str "[[Ghost]]") initial) in
  let st' := run (ManualScan.createFile (H := sample_host) (str "Ghost")) st in
  opened st' = [str "Ghost.md"]
  ∧ ∃ orphans, result ManualScan.getOrphans st' = Normal orphans
               ∧ str "Ghost" ∉ orphans.
Proof.
  intros st st'.
  destruct (createFile_adopts_orphan (H := sample_host) st (str "Ghost"))
    as (_ & _ & _ & Hopened & _ & _ & _ & Horphans); [by vm_compute..|].
  split; [exact Hopened|exact Horphans].
Defined.

(** X7. [createFile] never throws and always ends with exactly one new
    notice. When the path is taken or the vault rejects it, the notice
    carries the message of the error and nothing else changes: no file is
    created or opened, the index is as before, so the orphan stays
    listed. *)
Theorem createFile_always_one_notice `{Host} st linkName :
  let fileName :=
    if endsWith linkName (str ".md") then linkName else linkName ++ str ".md" in
  let st' := run (ManualScan.createFile linkName) st in
  result (ManualScan.createFile linkName) st = Normal ()
  ∧ ((notices st' = (str "Created: " ++ fileName) :: notices st
      ∧ opened st' = fileName :: opened st
      ∧ is_Some (vault st' !! fileName) ∧ vault st !! fileName = None)
     ∨ (∃ e, notices st' = (str "Failed to create file: " ++ message e) :: notices st
             ∧ (is_Some (vault st !! fileName) ∨ rejects fileName = Some e)
             ∧ vault st' = vault st ∧ linkCache st' = linkCache st
             ∧ opened st' = opened st ∧ refreshes st' = refreshes st
             ∧ result ManualScan.getOrphans st' = result ManualScan.getOrphans st)).
Proof.
  intros fileName st'.
  pose proof (createFile_cases st linkName) as Hcases.
  cbv zeta in Hcases. fold fileName in Hcases.
  destruct Hcases as [(e & Heq & Hwhy)|(Hfree & _ & Heq)].
  - assert (st' = snd (Notice (str "Failed to create file: " ++ message e) st))
      as Hst' by (unfold st', run; by rewrite Heq).
    split; [unfold result; by rewrite Heq|]. right. exists e.
    rewrite Hst'. split_and!; try done; by apply getOrphans_reads.
  - set (file := File {| extension := extname fileName; data := Normal [] |}) in *.
    set (st0 := store_set (<[fileName := file]> (vault st)) st) in *.
    assert (vault (run (ManualScan.on_create fileName file) st0) = vault st0
            ∧ notices (run (ManualScan.on_create fileName file) st0) = notices st0
            ∧ opened (run (ManualScan.on_create fileName file) st0) = opened st0)
      as (Hvault & Hnotices & Hopened).
    { unfold ManualScan.on_create, file. case_bool_decide; [|done].
      pose proof (updateFileCache_spec fileName false st0) as (_ & ? & ? & ? & _).
      done. }
    assert (st' = snd (ManualScan.createFile linkName st)) as Hst' by done.
    rewrite Heq in Hst'. cbn [snd] in Hst'.
    split; [unfold result; by rewrite Heq|]. left.
    rewrite Hst'. cbn [vault notices opened]. rewrite Hvault, Hnotices, Hopened.
    split_and!; try done.
    unfold st0, store_set. simpl. rewrite lookup_insert_eq. eauto.
Qed.

(** ** The query against a growing store *)

(** X8. When a markdown document appears in the store, or is written
    again, and the index stays as it is, the next query reports what it
    reported before without the names that resolve to the new document: its
    path, and its path without [.md]. No name is added. *)
Theorem document_appears_orphans_shrink st path content :
  let st' := store_write path (str "md") content st in
  ∃ before after,
    result ManualScan.getOrphans st = Normal before
    ∧ result ManualScan.getOrphans st' = Normal after
    ∧ ∀ name, name ∈ after ↔
              name ∈ before ∧ name ≠ path ∧ name ++ str ".md" ≠ path.
Proof.
  intros st'.
  destruct (getOrphans_elem st) as (before & Hq & _ & Hbefore).
  destruct (getOrphans_elem st') as (after & Hq' & _ & Hafter).
  exists before, after. unfold result. rewrite Hq, Hq'.
  split_and!; [done..|]. intros name. rewrite Hafter, Hbefore.
  unfold resolves_to_document, st'. rewrite !store_write_document.
  assert (indexed (store_write path (str "md") content st) name ↔ indexed st name)
    as -> by done.
  naive_solver.
Qed.

(** ** Round trips of the index *)

Lemma on_rename_cache path oldPath st :
  linkCache (run (ManualScan.on_rename path oldPath) st)
  = match linkCache st !! oldPath with
    | Some links => delete oldPath (<[path := links]> (linkCache st))
    | None => linkCache st
    end.
Proof.
  unfold ManualScan.on_rename. unfold_M. simpl.
  by destruct (linkCache st !! oldPath).
Qed.

(** X9. Renaming a document and renaming it back leaves the index as it
    was, when the two paths differ and nothing was indexed under the second
    one. *)
Theorem rename_there_and_back st a b :
  a ≠ b → linkCache st !! b = None →
  linkCache (run (ManualScan.on_rename a b) (run (ManualScan.on_rename b a) st))
  = linkCache st.
Proof.
  intros Hne Hb. rewrite !on_rename_cache.
  destruct (linkCache st !! a) as [links|] eqn:Ha.
  - rewrite lookup_delete_ne, lookup_insert_eq by done.
    apply map_eq. intros path.
    destruct (decide (path = b)) as [->|Hpb].
    { by rewrite lookup_delete_eq. }
    rewrite lookup_delete_ne by done.
    destruct (decide (path = a)) as [->|Hpa].
    { by rewrite lookup_insert_eq. }
    by rewrite lookup_insert_ne, lookup_delete_ne, lookup_insert_ne.
  - by rewrite Hb.
Qed.

Lemma rename_there_and_back_witness :
  let st := run (ManualScan.updateFileCache (str "a.md") false)
              (store_write (str "a.md") (str "md") (str "[[X]]") initial) in
  linkCache (run (ManualScan.on_rename (str "a.md") (str "b.md"))
               (run (ManualScan.on_rename (str "b.md") (str "a.md")) st))
  = linkCache st.
Proof.
  apply rename_there_and_back; [done|by vm_compute].
Defined.

(** X10. Indexing a document that was not indexed and then taking its
    ["delete"] event leaves the index as it was, whatever the document
    holds and whether or not it can be read. *)
Theorem upsert_then_delete st path skipRefresh :
  linkCache st !! path = None →
  linkCache (run (ManualScan.on_delete path)
               (run (ManualScan.updateFileCache path skipRefresh) st))
  = linkCache st.
Proof.
  intros Hnone. apply map_eq. intros other.
  change (linkCache (run (ManualScan.on_delete path) ?s))
    with (delete path (linkCache s)).
  destruct (decide (other = path)) as [->|Hne].
  - by rewrite lookup_delete_eq.
  - by rewrite lookup_delete_ne, updateFileCache_lookup, decide_False.
Qed.

Lemma upsert_then_delete_witness :
  let st := store_write (str "a.md") (str "md") (str "[[X]] [[Y|z]]") initial in
  linkCache (run (ManualScan.on_delete (str "a.md"))
               (run (ManualScan.updateFileCache (str "a.md") false) st))
  = linkCache st.
Proof.
  apply upsert_then_delete. by vm_compute.
Defined.

(** ** [buildCache] *)

Lemma elem_of_markdown_paths st path :
  path ∈ fst <$> markdownFiles (vault st) ↔ is_document st path.
Proof. by rewrite <- elem_of_document_paths, elem_of_list_to_set. Qed.

Lemma buildCache_lookup st path :
  linkCache (run ManualScan.buildCache st) !! path
  = if decide (path ∈ fst <$> markdownFiles (vault st))
    then entry_after st path else linkCache st !! path.
Proof.
  destruct (for_of_updateFileCache (markdownFiles (vault st)) st)
    as (_ & _ & Hcache).
  apply Hcache.
Qed.

Lemma buildCache_vault st : vault (run ManualScan.buildCache st) = vault st.
Proof.
  destruct (for_of_updateFileCache (markdownFiles (vault st)) st)
    as (_ & Hvault & _).
  apply Hvault.
Qed.





(** ** The panel *)

Lemma refresh_eq st :
  ∃ orphans,
    ManualScan.getOrphans st = (Normal orphans, st)
    ∧ ManualScanView.refresh st = (Normal (rendered orphans), st).
Proof.
  destruct (getOrphans_pure st) as (orphans & Heq). exists orphans.
  split; [done|]. unfold ManualScanView.refresh, try_catch, mbind, M_bind, rendered.
  rewrite Heq. by case_bool_decide.
Qed.

Lemma refresh_run st : run ManualScanView.refresh st = st.
Proof.
  destruct (refresh_eq st) as (orphans & _ & Heq). unfold run. by rewrite Heq.
Qed.

Lemma buildCache_result st :
  ManualScan.buildCache st = (Normal (), run ManualScan.buildCache st).
Proof.
  destruct (for_of_updateFileCache (markdownFiles (vault st)) st) as (Hres & _).
  unfold result in Hres. unfold run, ManualScan.buildCache, getMarkdownFiles,
    mbind, M_bind in *.
  destruct (for_of _ _ st) as [[[]|] ?]; simpl in *; congruence.
Qed.

Lemma onOpen_eq st :
  ManualScanView.onOpen st
  = ManualScanView.refresh
      (if bool_decide (size (linkCache st) = 0%nat)
       then run ManualScan.buildCache st else st).
Proof.
  unfold ManualScanView.onOpen, ManualScan.getLinkCache, mbind, M_bind.
  case_bool_decide; [|done]. by rewrite buildCache_result.
Qed.

Lemma onOpen_run st :
  run ManualScanView.onOpen st
  = if bool_decide (size (linkCache st) = 0%nat)
    then run ManualScan.buildCache st else st.
Proof.
  unfold run at 1. rewrite onOpen_eq.
  case_bool_decide; exact (refresh_run _).
Qed.

(** X12. [refresh] never throws, changes nothing of the state, and never
    renders the error state. With no orphan it renders the empty state
    alone; otherwise a header that starts with the number of orphans and a
    list with one item per orphan, in the order of the query, each item
    carrying the name as its text. *)
Theorem refresh_lists_the_orphans st :
  ∃ orphans panel,
    result ManualScan.getOrphans st = Normal orphans
    ∧ ManualScanView.refresh st = (Normal panel, st)
    ∧ panel ≠ [ManualScanView.error_state]
    ∧ (orphans = [] ↔ panel = [ManualScanView.empty_state])
    ∧ (orphans ≠ [] →
       ∃ header list,
         panel = [header; list]
         ∧ el_text header
           = decimal (length orphans) ++ str " orphan link"
               ++ (if bool_decide (length orphans = 1%nat) then [] else str "s")
         ∧ el_text <$> el_children list = orphans
         ∧ Forall (λ item, el_cls item = str "orphan-item") (el_children list)).
Proof.
  destruct (refresh_eq st) as (orphans & Hq & Hrefresh).
  exists orphans, (rendered orphans). unfold result. rewrite Hq.
  split_and!; [done|done|..].
  - unfold rendered. case_bool_decide; [by vm_compute|]. intros [=].
  - unfold rendered. destruct orphans as [|name orphans]; simpl; [done|].
    split; [done|]. intros [=].
  - intros Hne. unfold rendered.
    rewrite bool_decide_eq_false_2 by (by destruct orphans).
    eexists _, _. split_and!; [done|done| |].
    + simpl. rewrite <- list_fmap_compose. by rewrite list_fmap_id.
    + simpl. apply Forall_fmap, Forall_true. done.
Qed.

(** X13. [onOpen] builds the cache only when the index is empty. From an
    empty index the panel lists, in ascending order, exactly the names that
    some readable markdown document of the store links to and that do not
    resolve. On an index that holds an entry nothing is read again: the
    index stays as it is and the panel is what [refresh] renders. *)
Theorem onOpen_builds_an_empty_index st :
  (linkCache st = ∅ →
   ∃ orphans,
     result ManualScanView.onOpen st = Normal (rendered orphans)
     ∧ StronglySorted lex_lt orphans
     ∧ ∀ name, name ∈ orphans ↔
               (∃ path f content,
                  vault st !! path = Some (File f) ∧ extension f = str "md"
                  ∧ data f = Normal content ∧ name ∈ extractLinks content)
               ∧ ¬ resolves_to_document st name)
  ∧ (linkCache st ≠ ∅ →
     ManualScanView.onOpen st = ManualScanView.refresh st
     ∧ run ManualScanView.onOpen st = st).
Proof.
  split.
  - intros Hempty.
    assert (ManualScanView.onOpen st
            = ManualScanView.refresh (run ManualScan.buildCache st)) as Hopen.
    { rewrite onOpen_eq, bool_decide_eq_true_2; [done|].
      rewrite Hempty. apply map_size_empty. }
    set (st' := run ManualScan.buildCache st) in *.
    destruct (getOrphans_elem st') as (orphans' & Hq & Hsorted & Helem).
    destruct (refresh_eq st') as (orphans'' & Hq' & Hrefresh').
    rewrite Hq in Hq'. injection Hq' as <-.
    exists orphans'. unfold result. rewrite Hopen, Hrefresh'.
    split_and!; [done..|]. intros name. rewrite Helem.
    assert (resolves_to_document st' name ↔ resolves_to_document st name) as ->.
    { unfold resolves_to_document, is_document, st'. by rewrite buildCache_vault. }
    assert (indexed st' name ↔
            ∃ path f content,
              vault st !! path = Some (File f) ∧ extension f = str "md"
              ∧ data f = Normal content ∧ name ∈ extractLinks content) as ->;
      [|done].
    unfold indexed, st'. split.
    + intros (path & links & Hlookup & Hin).
      rewrite buildCache_lookup in Hlookup. unfold entry_after in Hlookup.
      rewrite Hempty, lookup_empty in Hlookup.
      destruct (decide (path ∈ fst <$> markdownFiles (vault st))) as [Hdoc|];
        [|done].
      apply elem_of_markdown_paths in Hdoc as (f & Hfile & Hext).
      rewrite Hfile in Hlookup.
      destruct (data f) as [content|] eqn:Hdata; [|done].
      injection Hlookup as <-. by exists path, f, content.
    + intros (path & f & content & Hfile & Hext & Hdata & Hin).
      exists path, (extractLinks content). split; [|done].
      rewrite buildCache_lookup, decide_True.
      * unfold entry_after. by rewrite Hfile, Hdata.
      * apply elem_of_markdown_paths. by exists f.
  - intros Hfull. rewrite onOpen_eq.
    assert (size (linkCache st) ≠ 0%nat) as Hsize.
    { intros Hzero. by apply map_size_empty_inv in Hzero. }
    rewrite bool_decide_eq_false_2 by done. split; [done|].
    by rewrite onOpen_run, bool_decide_eq_false_2.
Qed.

Lemma onOpen_builds_an_empty_index_witness :
  let st := store_write (str "A.md") (str "md") (str "[[Ghost]] [[B]]")
              (store_write (str "B.md") (str "md") (str "[[A]]") initial) in
  ∃ orphans,
    result ManualScanView.onOpen st = Normal (rendered orphans)
    ∧ StronglySorted lex_lt orphans
    ∧ ∀ name, name ∈ orphans ↔
              (∃ path f content,
                 vault st !! path = Some (File f) ∧ extension f = str "md"
                 ∧ data f = Normal content ∧ name ∈ extractLinks content)
              ∧ ¬ resolves_to_document st name.
Proof.
  intros st. apply (proj1 (onOpen_builds_an_empty_index st)). reflexivity.
Defined.

(** ** What the index holds in every run *)

Lemma index_wf_from st st' : index_wf st → entries_from st st' → index_wf st'.
Proof.
  intros Hwf Hfrom path links name Hlookup Hin.
  destruct (Hfrom path links Hlookup) as [(path' & Hold)|(content & ->)].
  - by eapply Hwf.
  - by eapply extractLinks_names_wf.
Qed.

Lemma entries_from_same st st' : linkCache st' = linkCache st → entries_from st st'.
Proof. intros Heq path links Hlookup. left. exists path. by rewrite <- Heq. Qed.

Lemma entries_from_updateFileCache st path skipRefresh :
  entries_from st (run (ManualScan.updateFileCache path skipRefresh) st).
Proof.
  intros other links. rewrite updateFileCache_lookup.
  destruct (decide (other = path)) as [->|]; [|by left; exists other].
  unfold entry_after. destruct (vault st !! path) as [[f|]|]; [|by left; exists path..].
  destruct (data f) as [content|]; [|by left; exists path].
  intros [= <-]. right. by exists content.
Qed.

Lemma entries_from_on_create st path file :
  entries_from st (run (ManualScan.on_create path file) st).
Proof.
  unfold ManualScan.on_create. destruct file as [f|]; [|by apply entries_from_same].
  case_bool_decide; [apply entries_from_updateFileCache|by apply entries_from_same].
Qed.

Lemma entries_from_buildCache st :
  entries_from st (run ManualScan.buildCache st).
Proof.
  intros path links. rewrite buildCache_lookup.
  destruct (decide _); [|by left; exists path].
  unfold entry_after. destruct (vault st !! path) as [[f|]|]; [|by left; exists path..].
  destruct (data f) as [content|]; [|by left; exists path].
  intros [= <-]. right. by exists content.
Qed.

Lemma entries_from_step `{Host} st st' : step st st' → entries_from st st'.
Proof.
  destruct 1 as [st v|st path file|st path file|st path|st path oldPath|st|st|st
                 |st linkName].
  - by apply entries_from_same.
  - apply entries_from_on_create.
  - apply entries_from_on_create.
  - intros other links Hlookup. left. exists other.
    change (linkCache (run (ManualScan.on_delete path) st))
      with (delete path (linkCache st)) in Hlookup.
    by apply lookup_delete_Some in Hlookup as [_ ?].
  - intros other links. rewrite on_rename_cache.
    destruct (linkCache st !! oldPath) as [moved|] eqn:Hold;
      [|by left; exists other].
    intros [_ Hlookup]%lookup_delete_Some.
    apply lookup_insert_Some in Hlookup as [[_ <-]|[_ ?]]; left; eauto.
  - apply entries_from_buildCache.
  - rewrite onOpen_run. case_bool_decide;
      [apply entries_from_buildCache|by apply entries_from_same].
  - rewrite refresh_run. by apply entries_from_same.
  - destruct (createFile_cases st linkName) as [(e & Heq & _)|(_ & _ & Heq)].
    + unfold run. rewrite Heq. by apply entries_from_same.
    + cbv zeta in Heq. unfold run. rewrite Heq. intros other links Hlookup.
      cbn [snd linkCache] in Hlookup.
      exact (entries_from_on_create (store_set _ st) _ _ other links Hlookup).
Qed.

(** X14. In every run of the plugin from its start (the store changing in
    any way, events reaching the listeners with any payload, the cache
    being built, the panel opened or refreshed, items activated), every name
    the index holds is well formed: not empty, without [|] or []], and
    without whitespace at either end. *)
Theorem index_names_stay_well_formed `{Host} st :
  reachable st → index_wf st.
Proof.
  induction 1 as [|st st' _ IH Hstep].
  - intros path links name Hlookup. unfold initial in Hlookup.
    cbn [linkCache] in Hlookup. by rewrite lookup_empty in Hlookup.
  - eapply index_wf_from; [done|]. by apply entries_from_step.
Qed.

Lemma index_names_stay_well_formed_witness :
  index_wf
    (run (ManualScan.on_rename (str "B.md") (str "A.md"))
       (run (ManualScan.on_create (str "A.md")
               (File {| extension := str "md";
                        data := Normal (str "[[ Ghost |g]] [[|x]] [[ ]]") |}))
          (store_set
             {[ str "A.md" :=
                  File {| extension := str "md";
                          data := Normal (str "[[ Ghost |g]] [[|x]] [[ ]]") |} ]}
             initial))).
Proof.
  apply (index_names_stay_well_formed (H := sample_host)).
  eapply reachable_step; [|apply step_rename].
  eapply reachable_step; [|apply step_create].
  eapply reachable_step; [|apply step_store].
  apply reachable_initial.
Defined.

(** ** The revision that looks the file up: [createFile] *)


(** ** The revision over the metadata cache *)

Lemma links_of_elem (cached : list jsstring) name :
  name ∈ MetadataIndex.links_of cached ↔
  name ≠ [] ∧ ∃ link, link ∈ cached ∧ name = MetadataIndex.linkName_of link.
Proof.
  unfold MetadataIndex.links_of.
  assert (∀ links (acc : gset jsstring),
            name ∈ foldl (λ (acc : gset jsstring) link,
                            if bool_decide (MetadataIndex.linkName_of link = [])
                            then acc
                            else acc ∪ {[ MetadataIndex.linkName_of link ]})
                         acc links
            ↔ name ∈ acc
              ∨ (name ≠ [] ∧ ∃ link, link ∈ links
                                     ∧ name = MetadataIndex.linkName_of link))
    as Hfold.
  { induction links as [|link links IH]; intros acc; simpl.
    - split; [by left|]. intros [|(_ & link & Hin & _)]; [done|].
      by apply elem_of_nil in Hin.
    - rewrite IH. case_bool_decide as Hempty.
      + split.
        * intros [|(Hne & l & Hl & ->)]; [by left|right].
          split; [done|]. exists l. split; [by right|done].
        * intros [|(Hne & l & Hl & ->)]; [by left|].
          apply elem_of_cons in Hl as [->|Hl]; [done|].
          right. split; [done|]. by exists l.
      + rewrite elem_of_union, elem_of_singleton. split.
        * intros [[Hacc| ->]|(Hne & l & Hl & ->)]; [by left| |].
          -- right. split; [done|]. exists link. split; [by left|done].
          -- right. split; [done|]. exists l. split; [by right|done].
        * intros [|(Hne & l & Hl & ->)]; [by left; left|].
          apply elem_of_cons in Hl as [->|Hl]; [by left; right|].
          right. split; [done|]. by exists l. }
  rewrite Hfold. split; [|by right].
  intros [Hin|]; [|done]. by apply not_elem_of_empty in Hin.
Qed.

Lemma metadata_linkName_of link name :
  name = MetadataIndex.linkName_of link ↔
  ∃ target, before_pipe link target ∧ trimmed target name.
Proof.
  unfold MetadataIndex.linkName_of.
  destruct (split_head link) as (target & -> & Hbefore). simpl. split.
  - intros ->. exists target. split; [done|apply trim_trimmed].
  - intros (target' & Hbefore' & Htrim).
    rewrite (before_pipe_unique _ _ _ Hbefore Hbefore').
    by apply trimmed_unique.
Qed.

(** X16. [updateFileCache] of the revision over the metadata cache never
    throws and logs nothing. Where the vault has no file at the path the
    state is unchanged. For a file it replaces the entry of the path, and a
    name is in the new entry exactly when it is not empty and is, for one
    of the cached links, the text before the first [|], trimmed. A file
    without cached links gets the empty entry: the links it had in the
    index are dropped. *)
Theorem metadata_update_replaces_entry `{MetadataCache} st path skipRefresh :
  let st' := run (MetadataIndex.updateFileCache path skipRefresh) st in
  result (MetadataIndex.updateFileCache path skipRefresh) st = Normal ()
  ∧ vault st' = vault st
  ∧ console st' = console st
  ∧ ((∀ f, vault st !! path ≠ Some (File f)) → st' = st)
  ∧ (∀ f, vault st !! path = Some (File f) →
       ∃ links,
         linkCache st' = <[path := links]> (linkCache st)
         ∧ (cached_links st path = None → links = ∅)
         ∧ ∀ name, name ∈ links ↔
                   name ≠ []
                   ∧ ∃ cached link target,
                       cached_links st path = Some cached ∧ link ∈ cached
                       ∧ before_pipe link target ∧ trimmed target name).
Proof.
  intros st'.
  unfold st', run, result, MetadataIndex.updateFileCache,
    MetadataIndex.getFileCache_links, getAbstractFileByPath, try_catch,
    mbind, M_bind, mret, M_ret, ManualScan.linkCache_set, ManualScan.refreshView.
  destruct (vault st !! path) as [[f|]|] eqn:Hpath; cbn [fst snd].
  - assert (∀ name,
              name ∈ match cached_links st path with
                     | Some cached => MetadataIndex.links_of cached
                     | None => ∅
                     end
              ↔ name ≠ []
                ∧ ∃ cached link target,
                    cached_links st path = Some cached ∧ link ∈ cached
                    ∧ before_pipe link target ∧ trimmed target name) as Helem.
    { intros name. destruct (cached_links st path) as [cached|].
      - rewrite links_of_elem. split.
        + intros (Hne & link & Hin & (target & ? & ?)%metadata_linkName_of).
          split; [done|]. by exists cached, link, target.
        + intros (Hne & cached' & link & target & [= <-] & Hin & Hbefore & Htrim).
          split; [done|]. exists link. split; [done|].
          apply metadata_linkName_of. by exists target.
      - split; [intros Hin; by apply not_elem_of_empty in Hin|].
        by intros (_ & ? & ? & ? & ? & _). }
    destruct skipRefresh; cbn [negb fst snd vault console linkCache].
    all: split_and!; [done|done|done|by intros Hno; destruct (Hno f)|].
    all: intros f' _; eexists; split_and!; [done| |exact Helem].
    all: by intros ->.
  - split_and!; try done; by intros ? [=].
  - split_and!; try done; by intros ? [=].
Qed.

Lemma metadata_update_facts `{MetadataCache} st path :
  let st' := run (MetadataIndex.updateFileCache path true) st in
  MetadataIndex.updateFileCache path true st = (Normal (), st')
  ∧ vault st' = vault st
  ∧ refreshes st' = refreshes st
  ∧ (∀ other, other ≠ path → linkCache st' !! other = linkCache st !! other)
  ∧ ((∃ f, vault st !! path = Some (File f)) → is_Some (linkCache st' !! path))
  ∧ ((∀ f, vault st !! path ≠ Some (File f)) → linkCache st' = linkCache st).
Proof.
  intros st'.
  unfold st', run, MetadataIndex.updateFileCache,
    MetadataIndex.getFileCache_links, getAbstractFileByPath, try_catch,
    mbind, M_bind, mret, M_ret, ManualScan.linkCache_set.
  destruct (vault st !! path) as [[f|]|] eqn:Hpath;
    cbn [negb fst snd vault refreshes linkCache].
  - split_and!; try done.
    + intros other Hne. by rewrite lookup_insert_ne.
    + intros _. rewrite lookup_insert_eq. eauto.
    + intros Hno. by destruct (Hno f).
  - split_and!; try done. by intros [? ?].
  - split_and!; try done. by intros [? ?].
Qed.

Lemma for_of_metadata `{MetadataCache} (files : list (jsstring * TFile)) st :
  let loop :=
    for_of files (λ file, MetadataIndex.updateFileCache (fst file) true) in
  loop st = (Normal (), run loop st)
  ∧ vault (run loop st) = vault st
  ∧ refreshes (run loop st) = refreshes st
  ∧ (∀ path, path ∉ fst <$> files →
             linkCache (run loop st) !! path = linkCache st !! path)
  ∧ (∀ path f, path ∈ fst <$> files → vault st !! path = Some (File f) →
               is_Some (linkCache (run loop st) !! path)).
Proof.
  revert st. induction files as [|[p g] files IH]; intros st.
  - simpl. split_and!; try done. intros path f Hin. by apply elem_of_nil in Hin.
  - destruct (metadata_update_facts st p)
      as (Heq & Hvault & Hrefresh & Hother & Hfile & _).
    set (st1 := run (MetadataIndex.updateFileCache p true) st) in *.
    destruct (IH st1) as (Hloop & Hvault' & Hrefresh' & Hout & Hin).
    assert (for_of ((p, g) :: files)
              (λ file, MetadataIndex.updateFileCache (fst file) true) st
            = for_of files
                (λ file, MetadataIndex.updateFileCache (fst file) true) st1)
      as Hstep.
    { simpl. unfold mbind, M_bind. cbn [fst]. by rewrite Heq. }
    cbv zeta. unfold run in *. rewrite Hstep.
    split_and!.
    + by rewrite Hloop at 1.
    + by rewrite Hvault'.
    + by rewrite Hrefresh'.
    + intros path Hnin. apply not_elem_of_cons in Hnin as [Hne Hnin].
      rewrite Hout by done. by apply Hother.
    + intros path f Hpath Hlookup.
      destruct (decide (path ∈ fst <$> files)) as [Hfiles|Hnot].
      * eapply Hin; [done|]. by rewrite Hvault.
      * apply elem_of_cons in Hpath as [->|?]; [|done].
        rewrite Hout by done. apply Hfile. eauto.
Qed.

(** X17. [buildCache] of the revision over the metadata cache never
    throws, changes nothing of the store and tells no panel. Afterwards
    every markdown document of the store is indexed, with or without cached
    links, and the entry of every other path is as it was. *)
Theorem metadata_buildCache_indexes_every_document `{MetadataCache} st :
  let st' := run MetadataIndex.buildCache st in
  result MetadataIndex.buildCache st = Normal ()
  ∧ vault st' = vault st
  ∧ refreshes st' = refreshes st
  ∧ (∀ path, is_document st path → is_Some (linkCache st' !! path))
  ∧ (∀ path, ¬ is_document st path →
             linkCache st' !! path = linkCache st !! path).
Proof.
  intros st'.
  destruct (for_of_metadata (markdownFiles (vault st)) st)
    as (Hloop & Hvault & Hrefresh & Hout & Hin).
  assert (MetadataIndex.buildCache st
          = for_of (markdownFiles (vault st))
              (λ file, MetadataIndex.updateFileCache (fst file) true) st)
    as Hbuild by done.
  unfold st', result, run in *. rewrite Hbuild.
  split_and!; [by rewrite Hloop|done|done| |].
  - intros path Hdoc. destruct (Hdoc) as (f & Hfile & _).
    eapply Hin; [|done]. by apply elem_of_markdown_paths.
  - intros path Hno. apply Hout. by rewrite elem_of_markdown_paths.
Qed.

(** The two loops of a query over any test of a link. *)
Lemma orphan_loops_where (unresolved : jsstring → bool)
    (add : jsstring → gset jsstring → gset jsstring)
    (cache : gmap jsstring (gset jsstring)) name :
  (∀ link acc n,
     n ∈ add link acc ↔ n ∈ acc ∨ (n = link ∧ unresolved link = true)) →
  name ∈ map_fold (λ _ (links : gset jsstring) (orphans : gset jsstring),
                     set_fold add orphans links)
                  (∅ : gset jsstring) cache
  ↔ (∃ path links, cache !! path = Some links ∧ name ∈ links)
    ∧ unresolved name = true.
Proof.
  intros Hadd.
  assert (∀ (links acc : gset jsstring),
            name ∈ set_fold add acc links
            ↔ name ∈ acc ∨ (name ∈ links ∧ unresolved name = true)) as Hinner.
  { intros links acc.
    apply (set_fold_ind_L (λ (r : gset jsstring) (X : gset jsstring),
             name ∈ r ↔ name ∈ acc ∨ (name ∈ X ∧ unresolved name = true))).
    - split; [by left|]. intros [|[Hin _]]; [done|].
      by apply not_elem_of_empty in Hin.
    - intros link X r Hnin IH.
      rewrite Hadd, IH, elem_of_union, elem_of_singleton. split.
      + intros [[|[? ?]]|[-> ?]]; auto.
      + intros [|[[->|?] ?]]; auto. }
  apply (map_fold_weak_ind (λ (r : gset jsstring) (m : gmap jsstring (gset jsstring)),
           name ∈ r ↔ (∃ path links, m !! path = Some links ∧ name ∈ links)
                      ∧ unresolved name = true)).
  - split; [intros Hin; by apply not_elem_of_empty in Hin|].
    intros [(path & links & Hlookup & _) _]. by rewrite lookup_empty in Hlookup.
  - intros path links m r Hfresh IH. rewrite Hinner, IH. split.
    + intros [[(path' & links' & Hlookup & Hin) Hres]|[Hin Hres]].
      * split; [|done]. exists path', links'. split; [|done].
        rewrite lookup_insert_ne; [done|]. intros ->. congruence.
      * split; [|done]. exists path, links. by rewrite lookup_insert_eq.
    + intros [(path' & links' & Hlookup & Hin) Hres].
      destruct (decide (path = path')) as [<-|Hne].
      * rewrite lookup_insert_eq in Hlookup. injection Hlookup as <-. by right.
      * rewrite lookup_insert_ne in Hlookup by done. left.
        split; [|done]. by exists path', links'.
Qed.

(** X18. [getOrphans] of the revision over the metadata cache never throws
    and leaves the state as it is. Its result is strictly ascending in the
    order of code units, so without duplicates, and holds exactly the
    indexed names the host resolves to no file. After [onunload] the index
    is empty and the query returns the empty list, whatever the host
    resolves. *)
Theorem metadata_orphans_are_unresolved `{MetadataCache} st :
  (∃ orphans,
     MetadataIndex.getOrphans st = (Normal orphans, st)
     ∧ StronglySorted lex_lt orphans
     ∧ ∀ name, name ∈ orphans ↔
               indexed st name ∧ linkpath_dest st name = None)
  ∧ linkCache (run MetadataIndex.onunload st) = ∅
  ∧ vault (run MetadataIndex.onunload st) = vault st
  ∧ result MetadataIndex.getOrphans (run MetadataIndex.onunload st) = Normal [].
Proof.
  split_and!; [|done|done|].
  - unfold MetadataIndex.getOrphans. eexists. split; [done|].
    split; [apply sort_elements|].
    intros name. rewrite (proj2 (sort_elements _)).
    rewrite (orphan_loops_where
               (λ link, bool_decide (linkpath_dest st link = None))).
    + unfold indexed. by rewrite bool_decide_eq_true.
    + intros link acc n. rewrite bool_decide_eq_true.
      destruct (linkpath_dest st link) as [resolved|].
      * split; [by left|]. by intros [|[_ ?]].
      * rewrite elem_of_union, elem_of_singleton. naive_solver.
  - unfold result, MetadataIndex.getOrphans, run, MetadataIndex.onunload.
    cbn [fst snd linkCache]. by rewrite map_fold_empty.
Qed.

(** ** The revision over the unresolved links of the host *)

(** X19. [getOrphans] of the revision that reads the unresolved links of
    the host returns, strictly ascending in the order of code units and so
    without duplicates, exactly the names that are unresolved in some
    source; with no unresolved link it returns the empty list. *)
Theorem unresolved_links_sorted (unresolved : gmap jsstring (gmap jsstring nat)) :
  StronglySorted lex_lt (UnresolvedLinks.getOrphans unresolved)
  ∧ (∀ name, name ∈ UnresolvedLinks.getOrphans unresolved ↔
             ∃ source links, unresolved !! source = Some links
                             ∧ is_Some (links !! name))
  ∧ UnresolvedLinks.getOrphans ∅ = [].
Proof.
  unfold UnresolvedLinks.getOrphans. split_and!.
  - apply sort_elements.
  - intros name. rewrite (proj2 (sort_elements _)).
    assert (∀ (links : gmap jsstring nat) (acc : gset jsstring),
              name ∈ map_fold (λ link (_ : nat) (orphans : gset jsstring),
                                 orphans ∪ {[ link ]}) acc links
              ↔ name ∈ acc ∨ is_Some (links !! name)) as Hinner.
    { intros links acc.
      apply (map_fold_weak_ind (λ (r : gset jsstring) (m : gmap jsstring nat),
               name ∈ r ↔ name ∈ acc ∨ is_Some (m !! name))).
      - rewrite lookup_empty. split; [by left|]. by intros [|[? ?]].
      - intros link count m r Hfresh IH.
        rewrite elem_of_union, elem_of_singleton, IH.
        destruct (decide (name = link)) as [->|Hne].
        + rewrite lookup_insert_eq. split; [|auto]. intros _. right. eauto.
        + rewrite lookup_insert_ne by done. naive_solver. }
    apply (map_fold_weak_ind
             (λ (r : gset jsstring) (m : gmap jsstring (gmap jsstring nat)),
                name ∈ r ↔ ∃ source links, m !! source = Some links
                                           ∧ is_Some (links !! name))).
    + split; [intros Hin; by apply not_elem_of_empty in Hin|].
      intros (source & links & Hlookup & _). by rewrite lookup_empty in Hlookup.
    + intros source links m r Hfresh IH. rewrite Hinner, IH. split.
      * intros [(source' & links' & Hlookup & Hin)|Hin].
        -- exists source', links'. split; [|done].
           rewrite lookup_insert_ne; [done|]. intros ->. congruence.
        -- exists source, links. by rewrite lookup_insert_eq.
      * intros (source' & links' & Hlookup & Hin).
        destruct (decide (source = source')) as [<-|Hne].
        -- rewrite lookup_insert_eq in Hlookup. injection Hlookup as <-. by right.
        -- rewrite lookup_insert_ne in Hlookup by done. left.
           by exists source', links'.
  - by rewrite map_fold_empty.
Qed.
